(** * ataraxia services: reflection on services

  A shallow embedding of [packages/services/src/reflect/ServiceReflect.ts]
  together with the parts of the service layer that the remote-call test
  ([Services: Remote Calls]) exercises.

  The file has three layers:
  - [Js]: the fragment of the JavaScript run time the class relies on
    (values that may be [undefined] or [null], the [||] operator, the
    insertion-ordered [Map], a heap of objects with fresh allocation);
  - [Reflect]: the abstract class [ServiceReflect], method by method;
  - [Services]: contracts, local and remote reflects, the registry and the
    wire protocol between two nodes.  Their sources are not at hand; they
    are modelled from the specification of the service layer, definition
    by definition, and marked as such. *)

From stdpp Require Import base option list gmap strings pretty.
From Stdlib Require Import ZArith.

Set Default Proof Using "Type".

(* ===================================================================== *)
(** ** The JavaScript fragment *)
(* ===================================================================== *)

Module Js.

(** A value of a type [T | undefined | null] where [T] is an object type. *)
Inductive nullable (A : Type) : Type :=
| Undefined
| Null
| Obj (a : A).
Arguments Undefined {A}.
Arguments Null {A}.
Arguments Obj {A} a.

#[global] Instance nullable_eq_dec `{EqDecision A} : EqDecision (nullable A).
Proof. solve_decision. Defined.

(** [ToBoolean]: [undefined] and [null] are falsy, every object is truthy. *)
Definition ToBoolean {A} (v : nullable A) : bool :=
  match v with
  | Undefined | Null => false
  | Obj _ => true
  end.

(** [x || y] *)
Definition or {A} (x y : nullable A) : nullable A :=
  if ToBoolean x then x else y.

(** *** [Map<string, V>]

    An ES [Map] iterates in insertion order; [set] on a key that is
    already present keeps the key's position and replaces its value. *)
Section Map.
Context {V : Type}.

Definition entries : Type := list (string * V).

(** [new Map()] *)
Definition Map_new : entries := [].

(** [m.get(key)]: [undefined] when the key is absent. *)
Fixpoint Map_get (m : entries) (key : string) : nullable V :=
  match m with
  | [] => Undefined
  | (k, v) :: m' => if decide (k = key) then Obj v else Map_get m' key
  end.

(** [m.has(key)] *)
Fixpoint Map_has (m : entries) (key : string) : bool :=
  match m with
  | [] => false
  | (k, _) :: m' => if decide (k = key) then true else Map_has m' key
  end.

(** [m.set(key, value)] *)
Fixpoint Map_set (m : entries) (key : string) (value : V) : entries :=
  match m with
  | [] => [(key, value)]
  | (k, v) :: m' =>
      if decide (k = key) then (k, value) :: m'
      else (k, v) :: Map_set m' key value
  end.

(** [[...m.values()]] as a list. *)
Definition Map_values (m : entries) : list V := m.*2.

(** [[...m.keys()]] as a list. *)
Definition Map_keys (m : entries) : list string := m.*1.

(** The [Map] obtained from [new Map()] by a sequence of [set] calls. *)
Definition Map_of_sets (ops : list (string * V)) : entries :=
  foldl (fun m kv => Map_set m kv.1 kv.2) Map_new ops.

(** What insertion order means, stated on the sequence of [set] calls
    alone: a key stands where it was first set, ... *)
Fixpoint first_occurrences (keys : list string) : list string :=
  match keys with
  | [] => []
  | k :: keys' => k :: filter (fun k' => k' ≠ k) (first_occurrences keys')
  end.

(** ... and carries the value it was last set to. *)
Definition last_set (ops : list (string * V)) (key : string) : option V :=
  (list_to_map (reverse ops) : gmap string V) !! key.

Definition insertion_order (ops : list (string * V)) : list V :=
  omap (last_set ops) (first_occurrences ops.*1).
End Map.
Arguments entries V : clear implicits.

(** *** Values that cross a call boundary

    Arguments and results of service methods ([any] in the source), as far
    as the remote-call test uses them: primitives. *)
Inductive any : Type :=
| AUndefined
| ANull
| ABoolean (b : bool)
| ANumber (n : Z)
| AString (s : string).

#[global] Instance any_eq_dec : EqDecision any.
Proof. solve_decision. Defined.

(** [ToString] on primitives (integral numbers only). *)
Definition ToString (v : any) : string :=
  match v with
  | AUndefined => "undefined"
  | ANull => "null"
  | ABoolean true => "true"
  | ABoolean false => "false"
  | ANumber n => pretty n
  | AString s => s
  end.

(** [new Error(message)] *)
Record Error : Type := { message : string }.

#[global] Instance Error_eq_dec : EqDecision Error.
Proof. solve_decision. Defined.

(** Exceptions thrown synchronously. *)
Inductive exn : Type :=
| TypeError
| ErrorThrown (e : Error)
| DuplicateDescriptor (name : string)
| InvalidImplementation (name : string)
| ContractMismatch
| DuplicateService (id : string)
| AlreadyJoined
| AlreadyLeft.

Inductive result (A : Type) : Type :=
| Ok (a : A)
| Throw (e : exn).
Arguments Ok {A} a.
Arguments Throw {A} e.

(** Computations over a state [St] that may throw. *)
Definition M (St A : Type) : Type := St -> result (A * St).

Definition ret {St A} (a : A) : M St A := fun s => Ok (a, s).

Definition bind {St A B} (c : M St A) (k : A -> M St B) : M St B :=
  fun s => match c s with
           | Ok (a, s') => k a s'
           | Throw e => Throw e
           end.

Definition throw {St A} (e : exn) : M St A := fun _ => Throw e.

(** The value a computation returns from the state [s], if it returns. *)
Definition value {St A} (c : M St A) (s : St) : option A :=
  match c s with
  | Ok (a, _) => Some a
  | Throw _ => None
  end.

Definition gets {St A} (f : St -> A) : M St A := fun s => Ok (f s, s).

Definition modify {St} (f : St -> St) : M St unit := fun s => Ok (tt, f s).

(** *** Descriptors *)

(** Modelled from the spec: the declarations of [ServiceMethod] and
    [ServiceEvent] ([./ServiceMethod], [./ServiceEvent]) and the types of
    [ataraxia-service-contracts] are not among the sources.  A method
    descriptor is [{name, parameters, returnType}], an event descriptor
    [{name, payload}]; both are immutable. *)
Inductive DataType : Type :=
| stringType
| numberType
| booleanType
| voidType
| anyType.

Record ServiceParameter : Type := {
  parameterName : string;
  parameterType : DataType;
}.

Record ServiceMethod : Type := {
  methodName : string;
  parameters : list ServiceParameter;
  returnType : DataType;
}.

Record ServiceEvent : Type := {
  eventName : string;
  payload : list DataType;
}.

(** *** The heap *)

Definition loc : Type := positive.

(** The objects the reflect layer allocates or reads.  A [Map] and an array
    hold references to the descriptor objects, never copies of them. *)
Inductive object : Type :=
| MapObject (m : entries loc)
| ArrayObject (elems : list (nullable loc))
| MethodObject (d : ServiceMethod)
| EventObject (d : ServiceEvent).

Abbreviation heap := (gmap loc object).

Definition alloc (o : object) : M heap loc :=
  fun h => let l := fresh (dom h) in Ok (l, <[l := o]> h).

(** Reading through a reference that does not hold a [Map] is a
    [TypeError]; a type-correct caller cannot trigger it. *)
Definition read_map (l : loc) : M heap (entries loc) :=
  fun h => match h !! l with
           | Some (MapObject m) => Ok (m, h)
           | _ => Throw TypeError
           end.

Definition read_array (l : loc) : M heap (list (nullable loc)) :=
  fun h => match h !! l with
           | Some (ArrayObject es) => Ok (es, h)
           | _ => Throw TypeError
           end.

(** Any in-place mutation of the array at [l] ([push], [pop], [splice],
    [arr[i] = x], [arr.length = n], ...): the elements are replaced by
    [f] of the old elements.  On anything but an array nothing happens. *)
Definition mutate_array (l : loc) (f : list (nullable loc) -> list (nullable loc))
    (h : heap) : heap :=
  match h !! l with
  | Some (ArrayObject es) => <[l := ArrayObject (f es)]> h
  | _ => h
  end.

(** Any in-place mutation of the [Map] at [l] ([set], [delete], [clear]):
    the entries are replaced by [f] of the old entries.  On anything but
    a [Map] nothing happens. *)
Definition mutate_map (l : loc) (f : entries loc -> entries loc) (h : heap) : heap :=
  match h !! l with
  | Some (MapObject m) => <[l := MapObject (f m)]> h
  | _ => h
  end.

(** [map.set(key, value)] on the [Map] at [l]. *)
Definition Map_set_at (l : loc) (key : string) (value : loc) (h : heap) : heap :=
  mutate_map l (fun m => Map_set m key value) h.

End Js.

Notation "x <- c ;; k" := (Js.bind c (fun x => k))
  (at level 100, c at next level, right associativity).
Notation "c ;;; k" := (Js.bind c (fun _ => k))
  (at level 100, right associativity).

(* ===================================================================== *)
(** ** [ServiceReflect] *)
(* ===================================================================== *)

Module Reflect.
Import Js.

(** The fields of the abstract class.  [_methods] and [_events] are
    references to the [Map] objects handed to the constructor. *)
Record ServiceReflect : Type := {
  id : string;
  _methods : loc;
  _events : loc;
}.

(** [this.id = id; this._methods = methods; this._events = events;]: the
    maps are kept by reference, not copied. *)
Definition constructor (id : string) (methods events : loc) : ServiceReflect :=
  {| id := id; _methods := methods; _events := events |}.

(** A promise and a listener are references; the table of promise states
    belongs to the state [St] of whoever implements the abstract methods. *)
Definition promise : Type := positive.
Definition listener : Type := positive.

(** The abstract methods, to be supplied by a subclass [R] whose effects
    live in a state [St]. *)
Class Subclass (R St : Type) : Type := {
  super : R -> ServiceReflect;
  apply : R -> string -> list any -> M St promise;
  subscribe : R -> string -> listener -> M St promise;
  unsubscribe : R -> string -> listener -> M St promise;
}.

(** [call(method, ...args) { return this.apply(method, args); }]: the rest
    parameter [args] is the list of the arguments after [method]. *)
Definition call {R St : Type} `{!Subclass R St} (this : R) (method : string)
    (args : list any) : M St promise :=
  apply this method args.

(** [return this._methods.get(name) || null;] *)
Definition getMethod (this : ServiceReflect) (name : string) : M heap (nullable loc) :=
  m <- read_map (_methods this) ;; ret (or (Map_get m name) Null).

(** [return this._methods.has(name);] *)
Definition hasMethod (this : ServiceReflect) (name : string) : M heap bool :=
  m <- read_map (_methods this) ;; ret (Map_has m name).

(** [return [ ...this._methods.values() ];]: the spread builds a new
    array of the references the map holds, in the map's order. *)
Definition methods (this : ServiceReflect) : M heap loc :=
  m <- read_map (_methods this) ;; alloc (ArrayObject (Obj <$> Map_values m)).

(** [return this._events.get(name) || null;] *)
Definition getEvent (this : ServiceReflect) (name : string) : M heap (nullable loc) :=
  m <- read_map (_events this) ;; ret (or (Map_get m name) Null).

(** [return this._events.has(name);] *)
Definition hasEvent (this : ServiceReflect) (name : string) : M heap bool :=
  m <- read_map (_events this) ;; ret (Map_has m name).

(** [return [ ...this._events.values() ];] *)
Definition events (this : ServiceReflect) : M heap loc :=
  m <- read_map (_events this) ;; alloc (ArrayObject (Obj <$> Map_values m)).

(** The elements of the array a getter returns. *)
Definition listed (getter : ServiceReflect -> M heap loc) (this : ServiceReflect)
    : M heap (list (nullable loc)) :=
  a <- getter this ;; read_array a.

(** Every lookup and listing on [this] gives in [h'] what it gives in [h]. *)
Definition same_answers (this : ServiceReflect) (h h' : heap) : Prop :=
  (∀ name, value (getMethod this name) h' = value (getMethod this name) h)
  ∧ (∀ name, value (hasMethod this name) h' = value (hasMethod this name) h)
  ∧ (∀ name, value (getEvent this name) h' = value (getEvent this name) h)
  ∧ (∀ name, value (hasEvent this name) h' = value (hasEvent this name) h)
  ∧ value (listed methods this) h' = value (listed methods this) h
  ∧ value (listed events this) h' = value (listed events this) h.

(** A small heap to try the class on: the method map at 1 holds the one
    descriptor at 3, the event map at 2 is empty. *)
Definition example_heap : heap :=
  {[ 1%positive := MapObject [("hello", 3%positive)];
     2%positive := MapObject [];
     3%positive := MethodObject {| methodName := "hello";
                                   parameters := [];
                                   returnType := stringType |} ]}.

Definition example_reflect : ServiceReflect :=
  constructor "test" 1%positive 2%positive.

End Reflect.

(* ===================================================================== *)
(** ** Contracts, reflects, the registry and the wire protocol *)
(* ===================================================================== *)

Module Services.
Import Js Reflect.

(** Modelled from the spec: [ServiceContract] (package
    [ataraxia-service-contracts]) is not among the sources.  A contract is
    the two insertion-ordered descriptor maps; [describeMethod] and
    [describeEvent] append a descriptor and fail with DuplicateDescriptor on
    a name described before. *)
Record ServiceContract : Type := {
  contractMethods : entries ServiceMethod;
  contractEvents : entries ServiceEvent;
}.

Definition ServiceContract_new : ServiceContract :=
  {| contractMethods := Map_new; contractEvents := Map_new |}.

Definition describeMethod (c : ServiceContract) (name : string)
    (ret_ty : DataType) (params : list ServiceParameter) : result ServiceContract :=
  if Map_has (contractMethods c) name then Throw (DuplicateDescriptor name)
  else Ok {| contractMethods :=
               Map_set (contractMethods c) name
                 {| methodName := name; parameters := params; returnType := ret_ty |};
             contractEvents := contractEvents c |}.

Definition describeEvent (c : ServiceContract) (name : string)
    (tys : list DataType) : result ServiceContract :=
  if Map_has (contractEvents c) name then Throw (DuplicateDescriptor name)
  else Ok {| contractMethods := contractMethods c;
             contractEvents :=
               Map_set (contractEvents c) name {| eventName := name; payload := tys |} |}.

(** Modelled from the spec: the implementation object handed to
    [implement] is not among the sources beyond the one of the test.  What
    a method of it does with its arguments: it returns a value or throws
    (an [async] method: its promise resolves or rejects).  An
    implementation is deterministic. *)
Inductive outcome : Type :=
| Returns (v : any)
| Throws (e : Error).

(** The object handed to [implement]: property name to function. *)
Abbreviation implementation := (gmap string (list any -> outcome)).

(** Modelled from the spec: the reasons a promise of the service layer
    rejects with (section 7 of the spec).  [Thrown e] is the value an
    implementation threw, unchanged. *)
Inductive failure : Type :=
| UnknownMethod (method : string)
| UnknownEvent (event : string)
| ServiceNotFound (id : string)
| RemoteInvocationError (message : string)
| CallTimeout
| NodeUnavailable
| SubscriptionFailed
| Thrown (e : Error).

#[global] Instance failure_eq_dec : EqDecision failure.
Proof. solve_decision. Defined.

(** Modelled from the spec: a promise is pending, or settled for good. *)
Inductive promise_state : Type :=
| Pending
| Resolved (v : any)
| Rejected (f : failure).

#[global] Instance promise_state_eq_dec : EqDecision promise_state.
Proof. solve_decision. Defined.

(** Modelled from the spec: the wire messages of section 6. *)
Inductive Message : Type :=
| ServiceAvailable (id : string) (ms : entries ServiceMethod) (es : entries ServiceEvent)
| ServiceUnavailable (id : string)
| CallRequest (serviceId method : string) (args : list any) (correlationId : N)
| CallResponse (correlationId : N) (response : any + string)
| EventSubscribe (serviceId event : string)
| EventSubscribed (serviceId event : string)
| EventUnsubscribe (serviceId event : string)
| EventFired (serviceId event : string) (args : list any).

(** Modelled from the spec: Local Reflect, a [ServiceReflect] bound to an
    implementation object; [contract] is the shape it advertises. *)
Record LocalReflect : Type := {
  localSuper : ServiceReflect;
  localContract : ServiceContract;
  localImpl : implementation;
}.

(** Modelled from the spec: Remote Reflect, a [ServiceReflect] for a service
    that the node [owner] hosts. *)
Record RemoteReflect : Type := {
  remoteSuper : ServiceReflect;
  owner : string;
}.

(** Modelled from the spec: the states of a registry,
    [Created → Joined → Left]. *)
Inductive lifecycle : Type := Created | Joined | Left.

(** Modelled from the spec: PendingCall.  The promise stands for the pair
    [resolve]/[reject]; the peer is the node the request went to.  There is
    no clock: the deadline passing is the event [timeout] below. *)
Record PendingCall : Type := {
  pendingPromise : promise;
  pendingPeer : string;
}.

(** Modelled from the spec: whose event emitter a listener is attached to,
    the one of a local reflect or the one of a remote reflect for a service
    of [peer]. *)
Inductive provider : Type :=
| LocalProvider
| RemoteProvider (peer : string).

#[global] Instance provider_eq_dec : EqDecision provider.
Proof. solve_decision. Defined.

(** Modelled from the spec: the state of one node's registry ([Services])
    with the tables of its reflects.  [outbox] holds the messages handed to
    the network and not yet taken by it, as (destination, message). *)
Record node : Type := {
  nodeHeap : heap;
  state : lifecycle;
  peers : list string;
  localServices : gmap string LocalReflect;
  remoteServices : list RemoteReflect;
  promises : gmap promise promise_state;
  nextCorrelationId : N;
  pendingCalls : gmap N PendingCall;
  pendingSubscriptions : list (string * string * promise);
  listeners : list (provider * string * string * listener);
  forwards : list (string * string * string);
  delivered : list (listener * list any);
  outbox : list (string * Message);
}.

Definition on_nodeHeap (f : heap -> heap) (n : node) : node :=
  {| nodeHeap := f (nodeHeap n); state := state n; peers := peers n;
     localServices := localServices n; remoteServices := remoteServices n;
     promises := promises n; nextCorrelationId := nextCorrelationId n;
     pendingCalls := pendingCalls n;
     pendingSubscriptions := pendingSubscriptions n;
     listeners := listeners n; forwards := forwards n;
     delivered := delivered n; outbox := outbox n |}.

Definition on_state (f : lifecycle -> lifecycle) (n : node) : node :=
  {| nodeHeap := nodeHeap n; state := f (state n); peers := peers n;
     localServices := localServices n; remoteServices := remoteServices n;
     promises := promises n; nextCorrelationId := nextCorrelationId n;
     pendingCalls := pendingCalls n;
     pendingSubscriptions := pendingSubscriptions n;
     listeners := listeners n; forwards := forwards n;
     delivered := delivered n; outbox := outbox n |}.

Definition on_peers (f : list string -> list string) (n : node) : node :=
  {| nodeHeap := nodeHeap n; state := state n; peers := f (peers n);
     localServices := localServices n; remoteServices := remoteServices n;
     promises := promises n; nextCorrelationId := nextCorrelationId n;
     pendingCalls := pendingCalls n;
     pendingSubscriptions := pendingSubscriptions n;
     listeners := listeners n; forwards := forwards n;
     delivered := delivered n; outbox := outbox n |}.

Definition on_localServices
    (f : gmap string LocalReflect
         -> gmap string LocalReflect)
    (n : node) : node :=
  {| nodeHeap := nodeHeap n; state := state n; peers := peers n;
     localServices := f (localServices n);
     remoteServices := remoteServices n; promises := promises n;
     nextCorrelationId := nextCorrelationId n;
     pendingCalls := pendingCalls n;
     pendingSubscriptions := pendingSubscriptions n;
     listeners := listeners n; forwards := forwards n;
     delivered := delivered n; outbox := outbox n |}.

Definition on_remoteServices
    (f : list RemoteReflect
         -> list RemoteReflect)
    (n : node) : node :=
  {| nodeHeap := nodeHeap n; state := state n; peers := peers n;
     localServices := localServices n;
     remoteServices := f (remoteServices n); promises := promises n;
     nextCorrelationId := nextCorrelationId n;
     pendingCalls := pendingCalls n;
     pendingSubscriptions := pendingSubscriptions n;
     listeners := listeners n; forwards := forwards n;
     delivered := delivered n; outbox := outbox n |}.

Definition on_promises
    (f : gmap promise promise_state
         -> gmap promise promise_state)
    (n : node) : node :=
  {| nodeHeap := nodeHeap n; state := state n; peers := peers n;
     localServices := localServices n; remoteServices := remoteServices n;
     promises := f (promises n); nextCorrelationId := nextCorrelationId n;
     pendingCalls := pendingCalls n;
     pendingSubscriptions := pendingSubscriptions n;
     listeners := listeners n; forwards := forwards n;
     delivered := delivered n; outbox := outbox n |}.

Definition on_nextCorrelationId (f : N -> N) (n : node) : node :=
  {| nodeHeap := nodeHeap n; state := state n; peers := peers n;
     localServices := localServices n; remoteServices := remoteServices n;
     promises := promises n; nextCorrelationId := f (nextCorrelationId n);
     pendingCalls := pendingCalls n;
     pendingSubscriptions := pendingSubscriptions n;
     listeners := listeners n; forwards := forwards n;
     delivered := delivered n; outbox := outbox n |}.

Definition on_pendingCalls
    (f : gmap N PendingCall
         -> gmap N PendingCall)
    (n : node) : node :=
  {| nodeHeap := nodeHeap n; state := state n; peers := peers n;
     localServices := localServices n; remoteServices := remoteServices n;
     promises := promises n; nextCorrelationId := nextCorrelationId n;
     pendingCalls := f (pendingCalls n);
     pendingSubscriptions := pendingSubscriptions n;
     listeners := listeners n; forwards := forwards n;
     delivered := delivered n; outbox := outbox n |}.

Definition on_pendingSubscriptions
    (f : list (string * string * promise)
         -> list (string * string * promise))
    (n : node) : node :=
  {| nodeHeap := nodeHeap n; state := state n; peers := peers n;
     localServices := localServices n; remoteServices := remoteServices n;
     promises := promises n; nextCorrelationId := nextCorrelationId n;
     pendingCalls := pendingCalls n;
     pendingSubscriptions := f (pendingSubscriptions n);
     listeners := listeners n; forwards := forwards n;
     delivered := delivered n; outbox := outbox n |}.

Definition on_listeners
    (f : list (provider * string * string * listener)
         -> list (provider * string * string * listener))
    (n : node) : node :=
  {| nodeHeap := nodeHeap n; state := state n; peers := peers n;
     localServices := localServices n; remoteServices := remoteServices n;
     promises := promises n; nextCorrelationId := nextCorrelationId n;
     pendingCalls := pendingCalls n;
     pendingSubscriptions := pendingSubscriptions n;
     listeners := f (listeners n); forwards := forwards n;
     delivered := delivered n; outbox := outbox n |}.

Definition on_forwards
    (f : list (string * string * string)
         -> list (string * string * string))
    (n : node) : node :=
  {| nodeHeap := nodeHeap n; state := state n; peers := peers n;
     localServices := localServices n; remoteServices := remoteServices n;
     promises := promises n; nextCorrelationId := nextCorrelationId n;
     pendingCalls := pendingCalls n;
     pendingSubscriptions := pendingSubscriptions n;
     listeners := listeners n; forwards := f (forwards n);
     delivered := delivered n; outbox := outbox n |}.

Definition on_delivered
    (f : list (listener * list any)
         -> list (listener * list any))
    (n : node) : node :=
  {| nodeHeap := nodeHeap n; state := state n; peers := peers n;
     localServices := localServices n; remoteServices := remoteServices n;
     promises := promises n; nextCorrelationId := nextCorrelationId n;
     pendingCalls := pendingCalls n;
     pendingSubscriptions := pendingSubscriptions n;
     listeners := listeners n; forwards := forwards n;
     delivered := f (delivered n); outbox := outbox n |}.

Definition on_outbox
    (f : list (string * Message)
         -> list (string * Message))
    (n : node) : node :=
  {| nodeHeap := nodeHeap n; state := state n; peers := peers n;
     localServices := localServices n; remoteServices := remoteServices n;
     promises := promises n; nextCorrelationId := nextCorrelationId n;
     pendingCalls := pendingCalls n;
     pendingSubscriptions := pendingSubscriptions n;
     listeners := listeners n; forwards := forwards n;
     delivered := delivered n; outbox := f (outbox n) |}.


(** Modelled from the spec: [new Services(network)] on a node whose
    connected peers are [connected]. *)
Definition Services_new (connected : list string) : node :=
  {| nodeHeap := ∅; state := Created; peers := connected; localServices := ∅;
     remoteServices := []; promises := ∅; nextCorrelationId := 0%N;
     pendingCalls := ∅; pendingSubscriptions := []; listeners := [];
     forwards := []; delivered := []; outbox := [] |}.

(** A computation on the heap, run on the heap of a node. *)
Definition lift_heap {A} (c : M heap A) : M node A :=
  fun n => match c (nodeHeap n) with
           | Ok (a, h) => Ok (a, on_nodeHeap (fun _ => h) n)
           | Throw e => Throw e
           end.

(** *** Promises *)

(** Modelled from the spec: [new Promise(...)] in the state [st]. *)
Definition new_promise (st : promise_state) : M node promise :=
  fun n => let p := fresh (dom (promises n)) in
           Ok (p, on_promises (insert p st) n).

(** A promise settles once. *)
Definition settle_in (ps : gmap promise promise_state) (p : promise)
    (st : promise_state) : gmap promise promise_state :=
  match ps !! p with
  | Some Pending => <[p := st]> ps
  | _ => ps
  end.

Definition settle (p : promise) (st : promise_state) : M node unit :=
  modify (on_promises (fun ps => settle_in ps p st)).

Definition promise_state_of (p : promise) : M node promise_state :=
  fun n => match promises n !! p with
           | Some st => Ok (st, n)
           | None => Throw TypeError
           end.

(** *** Sending *)

(** Modelled from the spec: what the registry asks of the transport,
    unicast to one peer and broadcast to the connected peers. *)
Definition send (peer : string) (m : Message) : M node unit :=
  modify (on_outbox (fun o => o ++ [(peer, m)])).

Definition broadcast (m : Message) : M node unit :=
  fun n => modify (on_outbox (fun o => o ++ ((fun p => (p, m)) <$> peers n))) n.

(** *** Listener tables *)

(** Modelled from the spec: the observer registry, (provider, service id,
    event name) to the listeners in the order they were added. *)
Definition listens (who : provider) (id event : string)
    (e : provider * string * string * listener) : bool :=
  bool_decide (e.1.1.1 = who ∧ e.1.1.2 = id ∧ e.1.2 = event).

Definition listeners_of (who : provider) (id event : string) (n : node)
    : list listener :=
  snd <$> List.filter (listens who id event) (listeners n).

Definition add_listener (who : provider) (id event : string) (l : listener)
    : M node unit :=
  modify (on_listeners (fun ls => ls ++ [(who, id, event, l)])).

Definition remove_listener (who : provider) (id event : string) (l : listener)
    : M node unit :=
  modify (on_listeners
            (List.filter (fun e => negb (listens who id event e && bool_decide (e.2 = l))))).

(** *** Local Reflect *)

(** Modelled from the spec: [apply] of a Local Reflect fails with
    UnknownMethod if the method is not in the descriptor map, else invokes
    the bound implementation's method and forwards its promise; what the
    implementation throws rejects the promise unchanged. *)
Definition LocalReflect_apply (this : LocalReflect) (method : string)
    (args : list any) : M node promise :=
  known <- lift_heap (hasMethod (localSuper this) method) ;;
  if known then
    match localImpl this !! method with
    | Some f =>
        match f args with
        | Returns v => new_promise (Resolved v)
        | Throws e => new_promise (Rejected (Thrown e))
        end
    | None => throw TypeError
    end
  else new_promise (Rejected (UnknownMethod method)).

(** Modelled from the spec: [subscribe] and [unsubscribe] of a Local
    Reflect fail with UnknownEvent if the event is undeclared, else attach
    or detach the listener and resolve at once, with no network
    involvement; [unsubscribe] resolves to whether the listener was
    registered. *)
Definition LocalReflect_subscribe (this : LocalReflect) (event : string)
    (l : listener) : M node promise :=
  known <- lift_heap (hasEvent (localSuper this) event) ;;
  if known then
    add_listener LocalProvider (id (localSuper this)) event l ;;;
    new_promise (Resolved AUndefined)
  else new_promise (Rejected (UnknownEvent event)).

Definition LocalReflect_unsubscribe (this : LocalReflect) (event : string)
    (l : listener) : M node promise :=
  known <- lift_heap (hasEvent (localSuper this) event) ;;
  if known then
    ls <- gets (listeners_of LocalProvider (id (localSuper this)) event) ;;
    remove_listener LocalProvider (id (localSuper this)) event l ;;;
    new_promise (Resolved (ABoolean (bool_decide (l ∈ ls))))
  else new_promise (Rejected (UnknownEvent event)).

#[global] Instance LocalReflect_Subclass : Subclass LocalReflect node :=
  {| super := localSuper;
     apply := LocalReflect_apply;
     subscribe := LocalReflect_subscribe;
     unsubscribe := LocalReflect_unsubscribe |}.

(** *** Remote Reflect *)

(** Modelled from the spec: a fresh correlation id, from a monotonic
    counter. *)
Definition fresh_correlation : M node N :=
  fun n => Ok (nextCorrelationId n, on_nextCorrelationId N.succ n).

(** Modelled from the spec: [apply] of a Remote Reflect fails with
    UnknownMethod if the method is not in the descriptor map; else it
    takes a fresh correlation id, registers a PendingCall, unicasts
    [{serviceId, method, args, correlationId}] to the owning node and
    returns the pending promise. *)
Definition RemoteReflect_apply (this : RemoteReflect) (method : string)
    (args : list any) : M node promise :=
  known <- lift_heap (hasMethod (remoteSuper this) method) ;;
  if known then
    correlationId <- fresh_correlation ;;
    p <- new_promise Pending ;;
    modify (on_pendingCalls
              (insert correlationId {| pendingPromise := p; pendingPeer := owner this |})) ;;;
    send (owner this) (CallRequest (id (remoteSuper this)) method args correlationId) ;;;
    ret p
  else new_promise (Rejected (UnknownMethod method)).

(** Modelled from the spec: [subscribe] of a Remote Reflect fails with
    UnknownEvent if the event is undeclared; the first listener of an event
    sends [event-subscribe] to the owning node and waits for the
    acknowledgement, later ones resolve at once. *)
Definition RemoteReflect_subscribe (this : RemoteReflect) (event : string)
    (l : listener) : M node promise :=
  known <- lift_heap (hasEvent (remoteSuper this) event) ;;
  if known then
    let who := RemoteProvider (owner this) in
    let sid := id (remoteSuper this) in
    ls <- gets (listeners_of who sid event) ;;
    add_listener who sid event l ;;;
    match ls with
    | [] =>
        send (owner this) (EventSubscribe sid event) ;;;
        p <- new_promise Pending ;;
        modify (on_pendingSubscriptions (fun q => q ++ [(sid, event, p)])) ;;;
        ret p
    | _ :: _ => new_promise (Resolved AUndefined)
    end
  else new_promise (Rejected (UnknownEvent event)).

(** Modelled from the spec: [unsubscribe] of a Remote Reflect fails with
    UnknownEvent if the event is undeclared; removing the last listener of
    an event sends [event-unsubscribe]; it resolves to whether the
    listener was registered, without waiting for the network. *)
Definition RemoteReflect_unsubscribe (this : RemoteReflect) (event : string)
    (l : listener) : M node promise :=
  known <- lift_heap (hasEvent (remoteSuper this) event) ;;
  if known then
    let who := RemoteProvider (owner this) in
    let sid := id (remoteSuper this) in
    before <- gets (listeners_of who sid event) ;;
    remove_listener who sid event l ;;;
    after <- gets (listeners_of who sid event) ;;
    match before, after with
    | _ :: _, [] => send (owner this) (EventUnsubscribe sid event)
    | _, _ => ret tt
    end ;;;
    new_promise (Resolved (ABoolean (bool_decide (l ∈ before))))
  else new_promise (Rejected (UnknownEvent event)).

#[global] Instance RemoteReflect_Subclass : Subclass RemoteReflect node :=
  {| super := remoteSuper;
     apply := RemoteReflect_apply;
     subscribe := RemoteReflect_subscribe;
     unsubscribe := RemoteReflect_unsubscribe |}.

(** A reflect as a caller holds it, without knowing which variant it is. *)
Inductive reflect : Type :=
| Local (r : LocalReflect)
| Remote (r : RemoteReflect).

#[global] Instance reflect_Subclass : Subclass reflect node :=
  {| super r := match r with Local r => super r | Remote r => super r end;
     apply r := match r with Local r => apply r | Remote r => apply r end;
     subscribe r := match r with Local r => subscribe r | Remote r => subscribe r end;
     unsubscribe r :=
       match r with Local r => unsubscribe r | Remote r => unsubscribe r end |}.

(** *** Binding an implementation *)

(** Modelled from the spec: the descriptor maps of a reflect are taken
    from a contract shape.  Allocates one descriptor object per entry and
    the [Map] that refers to them, in the entries' order. *)
Fixpoint alloc_descriptors {D} (mk : D -> object) (ds : entries D)
    : M heap (list (string * loc)) :=
  match ds with
  | [] => ret []
  | (name, d) :: ds' =>
      l <- alloc (mk d) ;;
      rest <- alloc_descriptors mk ds' ;;
      ret ((name, l) :: rest)
  end.

Definition new_Map {D} (mk : D -> object) (ds : entries D) : M heap loc :=
  refs <- alloc_descriptors mk ds ;; alloc (MapObject (Map_of_sets refs)).

(** Modelled from the spec: [implement] fails with InvalidImplementation if
    a declared method is not present on the implementation object.  The
    reflect has no service id before it is registered. *)
Definition implement (c : ServiceContract) (impl : implementation)
    : M heap LocalReflect :=
  match List.find (fun name => negb (bool_decide (is_Some (impl !! name))))
                  (Map_keys (contractMethods c)) with
  | Some name => throw (InvalidImplementation name)
  | None =>
      ms <- new_Map MethodObject (contractMethods c) ;;
      es <- new_Map EventObject (contractEvents c) ;;
      ret {| localSuper := constructor "" ms es;
             localContract := c;
             localImpl := impl |}
  end.

(** *** The registry *)

(** Modelled from the spec: [join] takes the registry from Created to
    Joined and advertises the services registered so far; out of order it
    fails with AlreadyJoined or AlreadyLeft. *)
Definition join : M node unit :=
  st <- gets state ;;
  match st with
  | Created =>
      modify (on_state (fun _ => Joined)) ;;;
      ls <- gets (fun n => map_to_list (localServices n)) ;;
      (fix advertise (ls : list (string * LocalReflect)) : M node unit :=
         match ls with
         | [] => ret tt
         | (sid, r) :: ls' =>
             broadcast (ServiceAvailable sid (contractMethods (localContract r))
                          (contractEvents (localContract r))) ;;;
             advertise ls'
         end) ls
  | Joined => throw AlreadyJoined
  | Left => throw AlreadyLeft
  end.

(** Modelled from the spec: [register(id, reflect)] fails with
    DuplicateService if [id] has a local registration, else inserts the
    reflect under [id] and broadcasts [service-available]. *)
Definition register (sid : string) (r : LocalReflect) : M node unit :=
  known <- gets (fun n => localServices n !! sid) ;;
  match known with
  | Some _ => throw (DuplicateService sid)
  | None =>
      let r' := {| localSuper := constructor sid (_methods (localSuper r))
                                   (_events (localSuper r));
                   localContract := localContract r;
                   localImpl := localImpl r |} in
      modify (on_localServices (insert sid r')) ;;;
      st <- gets state ;;
      match st with
      | Joined =>
          broadcast (ServiceAvailable sid (contractMethods (localContract r))
                       (contractEvents (localContract r)))
      | _ => ret tt
      end
  end.

(** Modelled from the spec: [unregister(id)] removes the local entry and
    broadcasts [service-unavailable]. *)
Definition unregister (sid : string) : M node unit :=
  modify (on_localServices (delete sid)) ;;;
  st <- gets state ;;
  match st with
  | Joined => broadcast (ServiceUnavailable sid)
  | _ => ret tt
  end.

(** Modelled from the spec: the provider a lookup of [sid] resolves to,
    the local registration if there is one, else the remote reflect seen
    first. *)
Definition provider_of (sid : string) (n : node) : option reflect :=
  match localServices n !! sid with
  | Some r => Some (Local r)
  | None =>
      Remote <$> List.find (fun r => bool_decide (id (remoteSuper r) = sid))
                   (remoteServices n)
  end.

(** Modelled from the spec: the handle [get(id)] returns is a live view; it
    looks the provider up again on each access. *)
Record ServiceHandle : Type := { handleId : string }.

Definition get (sid : string) : ServiceHandle := {| handleId := sid |}.

(** [handle.available] *)
Definition available (h : ServiceHandle) : M node bool :=
  gets (fun n => bool_decide (is_Some (provider_of (handleId h) n))).

(** Modelled from the spec: [handle.call(method, ...args)] is [call] on
    the reflect of the handle; on a handle that is not available the
    call fails with "service not found" rather than hanging. *)
Definition handle_call (h : ServiceHandle) (method : string) (args : list any)
    : M node promise :=
  r <- gets (provider_of (handleId h)) ;;
  match r with
  | Some r => call r method args
  | None => new_promise (Rejected (ServiceNotFound (handleId h)))
  end.

(** Modelled from the spec: the proxy [as] produces has one method per
    method descriptor of the contract; each forwards its arguments to
    [reflect.apply(name, args)]. *)
Record Proxy : Type := {
  proxyReflect : reflect;
  proxyContract : ServiceContract;
}.

(** Whether [has] holds of each of the names, asked in order. *)
Fixpoint all_known (has : string -> M heap bool) (names : list string)
    : M heap bool :=
  match names with
  | [] => ret true
  | name :: names' =>
      known <- has name ;;
      if known then all_known has names' else ret false
  end.

(** Modelled from the spec: [handle.as(contract)] fails with
    ContractMismatch unless the reflect advertises, by name, every method
    and every event the contract declares. *)
Definition handle_as (h : ServiceHandle) (c : ServiceContract) : M node Proxy :=
  r <- gets (provider_of (handleId h)) ;;
  match r with
  | None => throw ContractMismatch
  | Some r =>
      ms <- lift_heap (all_known (hasMethod (super r)) (Map_keys (contractMethods c))) ;;
      es <- lift_heap (all_known (hasEvent (super r)) (Map_keys (contractEvents c))) ;;
      if ms && es then ret {| proxyReflect := r; proxyContract := c |}
      else throw ContractMismatch
  end.

(** Modelled from the spec: calling the generated method [name] of the
    proxy forwards the arguments to [reflect.apply(name, args)] and
    returns the resulting promise; a name the contract does not declare
    is not a property of the proxy. *)
Definition proxy_method (p : Proxy) (name : string) (args : list any)
    : M node promise :=
  if Map_has (contractMethods (proxyContract p)) name
  then apply (proxyReflect p) name args
  else throw TypeError.

(** *** Inbound messages *)

(** Modelled from the spec: the message an error response carries; for a
    thrown error, the message of the error. *)
Definition failure_message (f : failure) : string :=
  match f with
  | UnknownMethod method => "unknown method " +:+ method
  | UnknownEvent event => "unknown event " +:+ event
  | ServiceNotFound sid => "service not found"
  | RemoteInvocationError msg => msg
  | CallTimeout => "call timed out"
  | NodeUnavailable => "node unavailable"
  | SubscriptionFailed => "subscription failed"
  | Thrown e => message e
  end.

(** Modelled from the spec: the [call-response] for a settled promise,
    success or error, correlated by id. *)
Definition respond (peer : string) (correlationId : N) (st : promise_state)
    : M node unit :=
  match st with
  | Resolved v => send peer (CallResponse correlationId (inl v))
  | Rejected f => send peer (CallResponse correlationId (inr (failure_message f)))
  | Pending => ret tt
  end.

Definition is_provided_by (sid peer : string) (r : RemoteReflect) : bool :=
  bool_decide (id (remoteSuper r) = sid ∧ owner r = peer).

(** Modelled from the spec: on [service-available] from a peer, unless
    there is a local registration for the id (or this peer's reflect is
    there already), a Remote Reflect is constructed from the advertised
    shape. *)
Definition on_service_available (from sid : string) (ms : entries ServiceMethod)
    (es : entries ServiceEvent) : M node unit :=
  loc_ <- gets (fun n => localServices n !! sid) ;;
  seen <- gets (fun n => existsb (is_provided_by sid from) (remoteServices n)) ;;
  match loc_, seen with
  | None, false =>
      lm <- lift_heap (new_Map MethodObject ms) ;;
      le <- lift_heap (new_Map EventObject es) ;;
      modify (on_remoteServices
                (fun rs => rs ++ [{| remoteSuper := constructor sid lm le;
                                     owner := from |}]))
  | _, _ => ret tt
  end.

(** Modelled from the spec: on [call-request], look up the Local Reflect
    for the named service, [apply] the method and reply with
    [call-response]. *)
Definition on_call_request (from sid method : string) (args : list any)
    (correlationId : N) : M node unit :=
  r <- gets (fun n => localServices n !! sid) ;;
  match r with
  | Some r =>
      p <- apply r method args ;;
      st <- promise_state_of p ;;
      respond from correlationId st
  | None => respond from correlationId (Rejected (ServiceNotFound sid))
  end.

(** Modelled from the spec: what a response settles the caller's promise
    with: a success payload
    resolves it, an error payload rejects it with RemoteInvocationError
    carrying the remote error message. *)
Definition settled (response : any + string) : promise_state :=
  match response with
  | inl v => Resolved v
  | inr msg => Rejected (RemoteInvocationError msg)
  end.

(** Modelled from the spec: a [call-response] settles the PendingCall
    with the same correlation id and removes it; a response that matches
    no pending call is ignored. *)
Definition on_call_response (correlationId : N) (response : any + string)
    : M node unit :=
  pc <- gets (fun n => pendingCalls n !! correlationId) ;;
  match pc with
  | Some pc =>
      modify (on_pendingCalls (delete correlationId)) ;;;
      settle (pendingPromise pc) (settled response)
  | None => ret tt
  end.

Definition awaits (sid event : string) (e : string * string * promise) : bool :=
  bool_decide (e.1.1 = sid ∧ e.1.2 = event).

Definition resolve_all (ps : list promise) (st : promise_state) : M node unit :=
  modify (on_promises (fun tbl => foldl (fun t p => settle_in t p st) tbl ps)).

(** Modelled from the spec: on [event-fired], deliver to the listeners
    registered against the Remote Reflect's event. *)
Definition on_event_fired (from sid event : string) (args : list any)
    : M node unit :=
  ls <- gets (listeners_of (RemoteProvider from) sid event) ;;
  modify (on_delivered (fun d => d ++ ((fun l => (l, args)) <$> ls))).

(** Modelled from the spec: the handler of inbound messages. *)
Definition receive (from : string) (m : Message) : M node unit :=
  match m with
  | ServiceAvailable sid ms es => on_service_available from sid ms es
  | ServiceUnavailable sid =>
      modify (on_remoteServices
                (List.filter (fun r => negb (is_provided_by sid from r))))
  | CallRequest sid method args correlationId =>
      on_call_request from sid method args correlationId
  | CallResponse correlationId response => on_call_response correlationId response
  | EventSubscribe sid event =>
      known <- gets (fun n => localServices n !! sid) ;;
      match known with
      | Some _ =>
          modify (on_forwards (fun fs => fs ++ [(sid, event, from)])) ;;;
          send from (EventSubscribed sid event)
      | None => ret tt
      end
  | EventSubscribed sid event =>
      q <- gets pendingSubscriptions ;;
      modify (on_pendingSubscriptions
                (List.filter (fun e => negb (awaits sid event e)))) ;;;
      resolve_all (snd <$> List.filter (awaits sid event) q) (Resolved AUndefined)
  | EventUnsubscribe sid event =>
      modify (on_forwards
                (List.filter (fun e => negb (bool_decide (e = (sid, event, from))))))
  | EventFired sid event args => on_event_fired from sid event args
  end.

(** Modelled from the spec: a local service fires an event; local
    listeners are called, and the event is relayed to the peers that
    subscribed. *)
Definition emit (sid event : string) (args : list any) : M node unit :=
  ls <- gets (listeners_of LocalProvider sid event) ;;
  modify (on_delivered (fun d => d ++ ((fun l => (l, args)) <$> ls))) ;;;
  fs <- gets forwards ;;
  modify (on_outbox
            (fun o => o ++ ((fun e => (e.2, EventFired sid event args))
                              <$> List.filter (fun e => bool_decide (e.1 = (sid, event))) fs))).

(** Modelled from the spec: the deadline of the pending call
    [correlationId] passes; the call is rejected with CallTimeout and
    removed. *)
Definition timeout (correlationId : N) : M node unit :=
  pc <- gets (fun n => pendingCalls n !! correlationId) ;;
  match pc with
  | Some pc =>
      modify (on_pendingCalls (delete correlationId)) ;;;
      settle (pendingPromise pc) (Rejected CallTimeout)
  | None => ret tt
  end.

(** Modelled from the spec: rejects, with NodeUnavailable, the pending
    calls that [lost] selects, and removes them. *)
Definition fail_pending (lost : PendingCall -> bool) : M node unit :=
  pcs <- gets (fun n => map_to_list (pendingCalls n)) ;;
  modify (on_pendingCalls (filter (fun e => lost e.2 = false))) ;;;
  resolve_all (pendingPromise <$> List.filter lost (snd <$> pcs)) (Rejected NodeUnavailable).

(** Modelled from the spec: a peer disconnects; its Remote Reflects are
    withdrawn and the calls pending on it fail. *)
Definition disconnected (peer : string) : M node unit :=
  modify (on_peers (List.filter (fun p => negb (bool_decide (p = peer))))) ;;;
  modify (on_remoteServices
            (List.filter (fun r => negb (bool_decide (owner r = peer))))) ;;;
  modify (on_forwards (List.filter (fun e => negb (bool_decide (e.2 = peer))))) ;;;
  fail_pending (fun pc => bool_decide (pendingPeer pc = peer)).

(** Modelled from the spec: [leave] takes the registry to Left, withdraws
    the local advertisements and rejects every pending call. *)
Definition leave : M node unit :=
  st <- gets state ;;
  match st with
  | Joined =>
      modify (on_state (fun _ => Left)) ;;;
      ls <- gets (fun n => map_to_list (localServices n)) ;;
      (fix withdraw (ls : list (string * LocalReflect)) : M node unit :=
         match ls with
         | [] => ret tt
         | (sid, _) :: ls' => broadcast (ServiceUnavailable sid) ;;; withdraw ls'
         end) ls ;;;
      fail_pending (fun _ => true)
  | Created => modify (on_state (fun _ => Left))
  | Left => throw AlreadyLeft
  end.

(** *** The network between the nodes

    Modelled from the spec: the transport is an external collaborator; what
    the registry needs of it is unicast in send order.  [wire] holds the
    messages in flight as (sender, destination, message). *)
Record network : Type := {
  nodes : gmap string node;
  wire : list (string * string * Message);
}.

(** Modelled from the spec: runs [c] on the node [name] and hands its
    outbox to the network. *)
Definition at_node {A} (name : string) (c : M node A) : M network A :=
  fun net =>
    match nodes net !! name with
    | None => Throw TypeError
    | Some n =>
        match c n with
        | Throw e => Throw e
        | Ok (a, n') =>
            Ok (a, {| nodes := <[name := on_outbox (fun _ => []) n']> (nodes net);
                      wire := wire net
                                ++ ((fun e => (name, e.1, e.2)) <$> outbox n') |})
        end
    end.

(** Modelled from the spec: delivers the oldest message in flight;
    [false] when there is none. *)
Definition deliver : M network bool :=
  fun net =>
    match wire net with
    | [] => Ok (false, net)
    | (from, to, m) :: rest =>
        let net' := {| nodes := nodes net; wire := rest |} in
        match nodes net !! to with
        | Some _ => (at_node to (receive from m) ;;; ret true) net'
        | None => Ok (true, net')
        end
    end.

(** Modelled from the spec: [consolidate] of the test network, "wait
    until all advertisements have propagated".  Delivers until nothing is
    in flight, at most [fuel] messages; the result tells whether the
    network came to rest. *)
Fixpoint consolidate (fuel : nat) : M network bool :=
  match fuel with
  | O => gets (fun net => bool_decide (wire net = []))
  | S fuel' =>
      more <- deliver ;;
      if more then consolidate fuel' else ret true
  end.

(** Modelled from the spec: [new TestNetwork()] with
    [bidirectional('a', 'b')] and a [Services] instance on each of the two
    nodes. *)
Definition TestNetwork : network :=
  {| nodes := {[ "a" := Services_new ["b"]; "b" := Services_new ["a"] ]};
     wire := [] |}.

(** [c] returns a promise that is new and already rejected with [f], and
    hands nothing to the network: no message, no pending call, no pending
    subscription. *)
Definition fails_at_once (c : M node promise) (f : failure) (n : node) : Prop :=
  ∃ p n', c n = Ok (p, n')
          ∧ promises n !! p = None
          ∧ promises n' !! p = Some (Rejected f)
          ∧ outbox n' = outbox n
          ∧ pendingCalls n' = pendingCalls n
          ∧ pendingSubscriptions n' = pendingSubscriptions n.

(** *** The remote-call test *)

(** [new ServiceContract<TestService>().describeMethod('hello', ...)] *)
Definition TestService : result ServiceContract :=
  describeMethod ServiceContract_new "hello" stringType
    [{| parameterName := "message"; parameterType := stringType |}].

(** [async hello(what) { return 'Hello ' + what + '!'; }] *)
Definition hello (args : list any) : outcome :=
  let what := nth 0 args AUndefined in
  Returns (AString ("Hello " +:+ ToString what +:+ "!")).

(** The part of both tests up to [testNetwork.consolidate()], for an
    implementation object [impl]. *)
Definition setup_with (impl : implementation) : M network unit :=
  at_node "a" join ;;;
  at_node "b" join ;;;
  match TestService with
  | Throw e => throw e
  | Ok contract =>
      r <- at_node "a" (lift_heap (implement contract impl)) ;;
      at_node "a" (register "test" r)
  end ;;;
  consolidate 16 ;;;
  ret tt.

Definition setup : M network unit := setup_with {[ "hello" := hello ]}.

(** [await p]: the network runs until it is at rest, then the promise is
    looked at. *)
Definition await (name : string) (p : promise) : M network promise_state :=
  consolidate 16 ;;;
  at_node name (promise_state_of p).


(** The network a computation leaves behind ([net] itself if it throws). *)
Definition network_after {A} (c : M network A) (net : network) : network :=
  match c net with
  | Ok (_, net') => net'
  | Throw _ => net
  end.


(** The test network once [setup_with] has run for an implementation. *)
Definition settled_network (impl : implementation) : network :=
  network_after (setup_with impl) TestNetwork.

(** The reflect node b holds for the service 'test' of node a. *)
Definition remote_test : RemoteReflect :=
  {| remoteSuper := constructor "test" 2%positive 3%positive; owner := "a" |}.


(** 'Can call remote service via non-proxy' *)
Definition test_non_proxy : M network promise_state :=
  setup ;;;
  let helloService := get "test" in
  ok <- at_node "b" (available helloService) ;;
  if ok then
    p <- at_node "b" (handle_call helloService "hello" [AString "world"]) ;;
    await "b" p
  else throw (ErrorThrown {| message := "Service not found" |}).

(** 'Can call remote service via proxy' *)
Definition test_proxy : M network promise_state :=
  setup ;;;
  let helloService := get "test" in
  ok <- at_node "b" (available helloService) ;;
  if ok then
    match TestService with
    | Throw e => throw e
    | Ok contract =>
        proxy <- at_node "b" (handle_as helloService contract) ;;
        p <- at_node "b" (proxy_method proxy "hello" [AString "world"]) ;;
        await "b" p
    end
  else throw (ErrorThrown {| message := "Service not found" |}).

End Services.

(* ===================================================================== *)
(** ** Facts about the [Map] model *)
(* ===================================================================== *)

Module MapFacts.
Import Js.

Section Map.
Context {V : Type}.
Implicit Types (m : entries V) (k key : string) (v : V).

Lemma Map_has_ToBoolean m key : Map_has m key = ToBoolean (Map_get m key).
Proof.
  induction m as [|[k v] m IH]; simpl; [done|].
  by destruct (decide (k = key)).
Qed.

Lemma Map_has_keys m key : Map_has m key = bool_decide (key ∈ Map_keys m).
Proof.
  induction m as [|[k v] m IH]; simpl.
  - done.
  - destruct (decide (k = key)) as [->|Hk].
    + rewrite bool_decide_eq_true_2; [done|]. apply elem_of_cons. by left.
    + rewrite IH. apply bool_decide_ext. rewrite elem_of_cons. intuition congruence.
Qed.

(** [get] agrees with the [Map] read as a finite map. *)
Lemma Map_get_lookup m key :
  Map_get m key = from_option Obj Undefined ((list_to_map m : gmap string V) !! key).
Proof.
  induction m as [|[k v] m IH]; simpl; [done|].
  destruct (decide (k = key)) as [->|Hk].
  - by rewrite lookup_insert_eq.
  - by rewrite lookup_insert_ne.
Qed.

Lemma Map_keys_dom m key :
  key ∈ Map_keys m ↔ key ∈ dom (list_to_map m : gmap string V).
Proof. unfold Map_keys. by rewrite dom_list_to_map_L, elem_of_list_to_set. Qed.

Lemma Map_keys_set m key v :
  Map_keys (Map_set m key v) =
    if decide (key ∈ Map_keys m) then Map_keys m else Map_keys m ++ [key].
Proof.
  unfold Map_keys. induction m as [|[k v'] m IH]; csimpl.
  - done.
  - destruct (decide (k = key)) as [->|Hk]; csimpl.
    + rewrite decide_True; [done|]. apply elem_of_cons. by left.
    + rewrite IH. destruct (decide (key ∈ m.*1)) as [Hin|Hin].
      * rewrite decide_True; [done|]. apply elem_of_cons. by right.
      * rewrite decide_False; [done|]. rewrite elem_of_cons. intuition congruence.
Qed.

Lemma Map_get_set m key v k :
  Map_get (Map_set m key v) k = if decide (key = k) then Obj v else Map_get m k.
Proof.
  induction m as [|[k0 v0] m IH]; simpl.
  - done.
  - destruct (decide (k0 = key)) as [->|Hk]; simpl.
    + by destruct (decide (key = k)).
    + rewrite IH. destruct (decide (k0 = k)) as [->|]; [|done].
      by rewrite decide_False by done.
Qed.

Lemma Map_set_fresh m key v :
  key ∉ Map_keys m → Map_set m key v = m ++ [(key, v)].
Proof.
  unfold Map_keys. induction m as [|[k0 v0] m IH]; simpl; [done|].
  rewrite not_elem_of_cons. intros [Hne Hin].
  rewrite decide_False by done. by rewrite IH.
Qed.

Lemma Map_of_sets_snoc (ops : list (string * V)) key v :
  Map_of_sets (ops ++ [(key, v)]) = Map_set (Map_of_sets ops) key v.
Proof. unfold Map_of_sets. by rewrite foldl_snoc. Qed.

Lemma first_occurrences_subset keys k :
  k ∈ first_occurrences keys ↔ k ∈ keys.
Proof.
  induction keys as [|k0 keys IH]; simpl; [done|].
  rewrite !elem_of_cons, list_elem_of_filter, IH.
  destruct (decide (k = k0)); intuition congruence.
Qed.

Lemma first_occurrences_NoDup keys : NoDup (first_occurrences keys).
Proof.
  induction keys as [|k0 keys IH]; simpl; [constructor|].
  constructor; [|by apply NoDup_filter].
  rewrite list_elem_of_filter. intuition congruence.
Qed.

Lemma first_occurrences_snoc keys k :
  first_occurrences (keys ++ [k]) =
    if decide (k ∈ keys) then first_occurrences keys
    else first_occurrences keys ++ [k].
Proof.
  induction keys as [|k0 keys IH]; csimpl; [done|].
  rewrite IH.
  destruct (decide (k ∈ keys)) as [Hin|Hin],
           (decide (k ∈ k0 :: keys)) as [Hin'|Hin']; try done.
  - exfalso. apply Hin'. apply elem_of_cons. by right.
  - apply elem_of_cons in Hin' as [->|?]; [|done].
    by rewrite filter_app, filter_cons_False, filter_nil, app_nil_r by tauto.
  - apply not_elem_of_cons in Hin' as [Hne _].
    by rewrite filter_app, filter_cons_True, filter_nil by done.
Qed.

Lemma last_set_snoc (ops : list (string * V)) key v k :
  last_set (ops ++ [(key, v)]) k = if decide (key = k) then Some v else last_set ops k.
Proof.
  unfold last_set. rewrite reverse_snoc. simpl.
  destruct (decide (key = k)) as [->|Hne].
  - by rewrite lookup_insert_eq.
  - by rewrite lookup_insert_ne.
Qed.

(** The keys and the bindings of a [Map] built by [set] calls. *)
Lemma Map_of_sets_spec (ops : list (string * V)) :
  Map_keys (Map_of_sets ops) = first_occurrences ops.*1
  ∧ ∀ k, Map_get (Map_of_sets ops) k = from_option Obj Undefined (last_set ops k).
Proof.
  induction ops as [|[key v] ops [IHk IHg]] using rev_ind; [done|].
  rewrite Map_of_sets_snoc. split.
  - rewrite Map_keys_set, IHk, fmap_app. simpl.
    rewrite first_occurrences_snoc.
    destruct (decide (key ∈ ops.*1)) as [Hin|Hin].
    + rewrite decide_True; [done|]. by apply first_occurrences_subset.
    + rewrite decide_False; [done|]. by rewrite first_occurrences_subset.
  - intros k. rewrite Map_get_set, last_set_snoc, IHg.
    by destruct (decide (key = k)).
Qed.

Lemma Map_keys_NoDup (ops : list (string * V)) : NoDup (Map_keys (Map_of_sets ops)).
Proof.
  destruct (Map_of_sets_spec ops) as [-> _]. apply first_occurrences_NoDup.
Qed.

(** With distinct keys, the values are the bindings of the keys, in the
    order of the keys. *)
Lemma Map_values_by_keys m (g : string → option V) :
  NoDup (Map_keys m) →
  (∀ k, k ∈ Map_keys m → Map_get m k = from_option Obj Undefined (g k)) →
  Map_values m = omap g (Map_keys m).
Proof.
  unfold Map_values, Map_keys.
  induction m as [|[k0 v0] m IH]; csimpl; intros Hnd Hg; [done|].
  apply NoDup_cons in Hnd as [Hnotin Hnd].
  assert (g k0 = Some v0) as ->.
  { specialize (Hg k0 ltac:(left)). destruct (decide (k0 = k0)); [|done].
    destruct (g k0); simpl in Hg; congruence. }
  f_equal. apply IH; [done|]. intros k Hk.
  specialize (Hg k ltac:(by right)).
  destruct (decide (k0 = k)) as [<-|Hne]; [done|]. exact Hg.
Qed.

Lemma Map_values_insertion_order (ops : list (string * V)) :
  Map_values (Map_of_sets ops) = insertion_order ops.
Proof.
  destruct (Map_of_sets_spec ops) as [Hk Hg].
  unfold insertion_order. rewrite <- Hk.
  apply Map_values_by_keys; [apply Map_keys_NoDup | auto].
Qed.

Lemma Map_of_sets_distinct (ops : list (string * V)) :
  NoDup ops.*1 → Map_of_sets ops = ops.
Proof.
  induction ops as [|[key v] ops IH] using rev_ind; [done|].
  rewrite fmap_app. simpl. intros [Hnd [Hnotin _]]%NoDup_app.
  rewrite Map_of_sets_snoc, IH by done.
  apply Map_set_fresh. intros Hin. apply (Hnotin key); [done|]. by left.
Qed.

End Map.
End MapFacts.

(* ===================================================================== *)
(** ** [ServiceReflect]: the claims on the class *)
(* ===================================================================== *)

Module ReflectFacts.
Import Js Reflect MapFacts.

Lemma read_map_live (h : heap) l m :
  h !! l = Some (MapObject m) → read_map l h = Ok (m, h).
Proof. unfold read_map. by intros ->. Qed.

Lemma value_read_then {A} (l : loc) (g : entries loc → A) (h : heap) :
  value (m <- read_map l ;; ret (g m)) h = g <$> value (read_map l) h.
Proof.
  unfold value, bind, ret, read_map.
  by destruct (h !! l) as [[]|].
Qed.

Lemma alloc_fresh o (h : heap) a h1 :
  alloc o h = Ok (a, h1) → h !! a = None ∧ h1 = <[a := o]> h.
Proof.
  unfold alloc. intros [= <- <-]. split; [|done].
  apply not_elem_of_dom, is_fresh.
Qed.

(** A listing reads the map, allocates, and nothing else. *)
Lemma listing_inv (field : ServiceReflect → loc) this (h : heap) a h1 :
  (m <- read_map (field this) ;; alloc (ArrayObject (Obj <$> Map_values m))) h
    = Ok (a, h1) →
  ∃ m, h !! field this = Some (MapObject m)
       ∧ h !! a = None
       ∧ h1 = <[a := ArrayObject (Obj <$> Map_values m)]> h.
Proof.
  unfold bind, read_map.
  destruct (h !! field this) as [[m| | |]|] eqn:Hm; try done.
  intros [? ?]%alloc_fresh. eauto.
Qed.

Lemma value_listed (field : ServiceReflect → loc) this (h : heap) :
  value (a <- (m <- read_map (field this) ;;
               alloc (ArrayObject (Obj <$> Map_values m))) ;; read_array a) h
  = (λ m, Obj <$> Map_values m) <$> value (read_map (field this)) h.
Proof.
  unfold value, bind, read_map, read_array, alloc.
  destruct (h !! field this) as [[m| | |]|]; try done.
  by rewrite lookup_insert_eq.
Qed.

(** Mutating an array that did not exist in [h] is invisible to every read
    of a [Map] that [h] allows. *)
Lemma read_map_after_mutation (h : heap) a es f l :
  h !! a = None →
  value (read_map l) (mutate_array a f (<[a := ArrayObject es]> h))
  = value (read_map l) h.
Proof.
  intros Ha. unfold mutate_array. rewrite lookup_insert_eq, insert_insert_eq.
  unfold value, read_map. destruct (decide (l = a)) as [->|Hne].
  - by rewrite lookup_insert_eq, Ha.
  - rewrite lookup_insert_ne by done. by destruct (h !! l) as [[]|].
Qed.

(** C1: [call(method, ...args)] is [apply(method, args)], whatever the
    subclass, the method and the arguments: the same computation, hence the
    same promise and the same effects; with no argument, [call(method)] is
    [apply(method, [])]. *)
Theorem call_is_apply {R St : Type} `{!Subclass R St} (this : R)
    (method : string) (args : list any) :
  call this method args = apply this method args
  ∧ call this method [] = apply this method [].
Proof. split; reflexivity. Qed.

(** C5: on a reflect constructed over two live maps, [getMethod] returns
    the descriptor the method map holds for the name and [null] when it
    holds none, [hasMethod] tells whether the name is a key of the method
    map, [getEvent] and [hasEvent] do the same over the event map, and
    all four leave the heap as it was. *)
Theorem lookups_are_pure (i : string) (ms es : loc) (mm em : entries loc)
    (h : heap) (name : string) :
  h !! ms = Some (MapObject mm) →
  h !! es = Some (MapObject em) →
  let this := constructor i ms es in
  let method_map : gmap string loc := list_to_map mm in
  let event_map : gmap string loc := list_to_map em in
  getMethod this name h = Ok (from_option Obj Null (method_map !! name), h)
  ∧ hasMethod this name h = Ok (bool_decide (name ∈ dom method_map), h)
  ∧ getEvent this name h = Ok (from_option Obj Null (event_map !! name), h)
  ∧ hasEvent this name h = Ok (bool_decide (name ∈ dom event_map), h).
Proof.
  intros Hm He this method_map event_map.
  unfold getMethod, hasMethod, getEvent, hasEvent, bind, ret. simpl.
  rewrite (read_map_live _ _ _ Hm), (read_map_live _ _ _ He).
  rewrite !Map_get_lookup, !Map_has_keys. subst method_map event_map.
  repeat split.
  - by destruct (_ !! name).
  - f_equal. f_equal. apply bool_decide_ext, Map_keys_dom.
  - by destruct (_ !! name).
  - f_equal. f_equal. apply bool_decide_ext, Map_keys_dom.
Qed.

Lemma lookups_are_pure_witness :
  getMethod example_reflect "hello" example_heap = Ok (Obj 3%positive, example_heap)
  ∧ hasMethod example_reflect "bye" example_heap = Ok (false, example_heap).
Proof.
  destruct (lookups_are_pure "test" 1%positive 2%positive
              [("hello", 3%positive)] [] example_heap "hello")
    as (Hget & _); [reflexivity | reflexivity |].
  destruct (lookups_are_pure "test" 1%positive 2%positive
              [("hello", 3%positive)] [] example_heap "bye")
    as (_ & Hhas & _); [reflexivity | reflexivity |].
  split; [exact Hget | exact Hhas].
Defined.

(** C6: when the method map and the event map were filled by [set] calls,
    [methods] and [events] list the descriptors in insertion order: each
    name where it was first set, with the descriptor it was last set to.
    For names set once each (a contract describes a name once), that is
    the order of the calls. *)
Theorem listings_in_insertion_order (this : ServiceReflect) (h : heap)
    (ms es : list (string * loc)) :
  h !! _methods this = Some (MapObject (Map_of_sets ms)) →
  h !! _events this = Some (MapObject (Map_of_sets es)) →
  value (listed methods this) h = Some (Obj <$> insertion_order ms)
  ∧ value (listed events this) h = Some (Obj <$> insertion_order es)
  ∧ (NoDup ms.*1 → insertion_order ms = ms.*2)
  ∧ (NoDup es.*1 → insertion_order es = es.*2).
Proof.
  intros Hm He. unfold listed, methods, events.
  rewrite !value_listed. unfold value.
  rewrite (read_map_live _ _ _ Hm), (read_map_live _ _ _ He). simpl.
  rewrite !Map_values_insertion_order.
  repeat split; intros Hnd;
    by rewrite <- Map_values_insertion_order, Map_of_sets_distinct.
Qed.

Lemma listings_in_insertion_order_witness :
  let h : heap := <[1%positive := MapObject [("b", 7%positive); ("a", 9%positive)]]>
                    example_heap in
  value (listed methods example_reflect) h = Some [Obj 7%positive; Obj 9%positive].
Proof.
  intros h.
  destruct (listings_in_insertion_order example_reflect h
              [("b", 5%positive); ("a", 9%positive); ("b", 7%positive)] [])
    as (Hm & _); [reflexivity | reflexivity |].
  exact Hm.
Defined.

(** What holds of an array [a] that a read of [methods] or [events]
    returned from the heap [h], leaving the heap [h1]. *)
Lemma listing_inv_fresh (getter : ServiceReflect → M heap loc)
    (this : ServiceReflect) (h h1 : heap) (a : loc) :
  getter = methods ∨ getter = events →
  getter this h = Ok (a, h1) →
  h !! a = None
  ∧ (∀ f l o, h !! l = Some o → mutate_array a f h1 !! l = Some o)
  ∧ (∀ f, same_answers this h (mutate_array a f h1))
  ∧ (∀ a' h2, methods this h1 = Ok (a', h2) → a' ≠ a)
  ∧ (∀ a' h2, events this h1 = Ok (a', h2) → a' ≠ a).
Proof.
  intros Hgetter Hread.
  assert (∃ field m, h !! field this = Some (MapObject m) ∧ h !! a = None
            ∧ h1 = <[a := ArrayObject (Obj <$> Map_values m)]> h)
    as (field & m & Hm & Ha & ->).
  { destruct Hgetter as [-> | ->].
    - exists _methods. by apply listing_inv.
    - exists _events. by apply listing_inv. }
  split; [done|]. split; [|split; [|split]].
  - intros f l o Hl. unfold mutate_array.
    rewrite lookup_insert_eq, insert_insert_eq.
    rewrite lookup_insert_ne; [done|]. intros <-. congruence.
  - intros f. unfold same_answers, getMethod, hasMethod, getEvent, hasEvent,
      listed, methods, events.
    repeat split; intros;
      rewrite ?value_read_then, ?value_listed, !read_map_after_mutation; done.
  - intros a' h2 (m' & _ & Ha' & _)%listing_inv ->.
    by rewrite lookup_insert_eq in Ha'.
  - intros a' h2 (m' & _ & Ha' & _)%listing_inv ->.
    by rewrite lookup_insert_eq in Ha'.
Qed.

(** C9: on a reflect whose two maps are live, a read of [methods] or of
    [events] returns an array that is new: it was not in the heap before,
    and a later read returns another one.  Whatever is then done to its
    elements, every object that was in the heap before the read (the
    reflect's two maps among them) is as it was, and every lookup and
    every listing on the reflect answers as before the read. *)
Theorem listing_is_a_fresh_array (getter : ServiceReflect → M heap loc)
    (this : ServiceReflect) (h : heap) (mm em : entries loc) :
  h !! _methods this = Some (MapObject mm) →
  h !! _events this = Some (MapObject em) →
  getter = methods ∨ getter = events →
  ∃ a h1,
    getter this h = Ok (a, h1)
    ∧ h !! a = None
    ∧ (∀ f l o, h !! l = Some o → mutate_array a f h1 !! l = Some o)
    ∧ (∀ f, same_answers this h (mutate_array a f h1))
    ∧ (∀ a' h2, methods this h1 = Ok (a', h2) → a' ≠ a)
    ∧ (∀ a' h2, events this h1 = Ok (a', h2) → a' ≠ a).
Proof.
  intros Hm He Hgetter.
  assert (∃ a h1, getter this h = Ok (a, h1)) as (a & h1 & Hread).
  { destruct Hgetter as [-> | ->]; unfold methods, events, bind.
    - rewrite (read_map_live _ _ _ Hm). unfold alloc. eauto.
    - rewrite (read_map_live _ _ _ He). unfold alloc. eauto. }
  exists a, h1. split; [done|]. by apply (listing_inv_fresh getter).
Qed.

Lemma listing_is_a_fresh_array_witness :
  ∃ a h1,
    methods example_reflect example_heap = Ok (a, h1)
    ∧ example_heap !! a = None
    ∧ same_answers example_reflect example_heap
        (mutate_array a (λ es, Null :: es) h1).
Proof.
  destruct (listing_is_a_fresh_array methods example_reflect example_heap
              [("hello", 3%positive)] [])
    as (a & h1 & Hread & Hfresh & _ & Hsame & _);
    [reflexivity | reflexivity | by left |].
  exists a, h1. split; [exact Hread|]. split; [exact Hfresh | exact (Hsame _)].
Defined.

(** C10: [hasMethod(name)] is [true] exactly when [getMethod(name)] returns
    something other than [null], and [false] exactly when it returns
    [null]; likewise [hasEvent] and [getEvent]. *)
Theorem has_iff_get_not_null (this : ServiceReflect) (name : string) (h : heap) :
  (value (hasMethod this name) h = Some true
     ↔ ∃ d, value (getMethod this name) h = Some d ∧ d ≠ Null)
  ∧ (value (hasMethod this name) h = Some false
     ↔ value (getMethod this name) h = Some Null)
  ∧ (value (hasEvent this name) h = Some true
     ↔ ∃ d, value (getEvent this name) h = Some d ∧ d ≠ Null)
  ∧ (value (hasEvent this name) h = Some false
     ↔ value (getEvent this name) h = Some Null).
Proof.
  unfold hasMethod, getMethod, hasEvent, getEvent.
  rewrite !value_read_then.
  assert (∀ m : entries loc,
            (Map_has m name = true ↔ or (Map_get m name) Null ≠ Null)
            ∧ (Map_has m name = false ↔ or (Map_get m name) Null = Null)) as Hkey.
  { intros m. rewrite Map_has_ToBoolean. unfold or.
    destruct (Map_get m name); simpl; split; split; done. }
  repeat split.
  all: destruct (value (read_map _) h) as [m|]; simpl;
    try (destruct (Hkey m) as [[? ?] [? ?]]).
  all: try (intros [d [[= <-] ?]]); try (intros [= ?]); try done.
  all: eauto 6 using f_equal.
Qed.

End ReflectFacts.

(* ===================================================================== *)
(** ** The service layer: the claims on calls *)
(* ===================================================================== *)

Module ServicesFacts.
Import Js Reflect Services MapFacts ReflectFacts.

Lemma node_eta (n : node) : on_nodeHeap (λ _, nodeHeap n) n = n.
Proof. by destruct n. Qed.

(** A heap computation that leaves the heap alone leaves the node alone. *)
Lemma lift_heap_pure {A} (c : M heap A) (a : A) (n : node) :
  c (nodeHeap n) = Ok (a, nodeHeap n) → lift_heap c n = Ok (a, n).
Proof. unfold lift_heap. intros ->. by rewrite node_eta. Qed.

Lemma hasMethod_live this name (n : node) m :
  nodeHeap n !! _methods this = Some (MapObject m) →
  lift_heap (hasMethod this name) n = Ok (Map_has m name, n).
Proof.
  intros Hm. apply lift_heap_pure. unfold hasMethod, bind, ret.
  by rewrite (read_map_live _ _ _ Hm).
Qed.

Lemma hasEvent_live this name (n : node) m :
  nodeHeap n !! _events this = Some (MapObject m) →
  lift_heap (hasEvent this name) n = Ok (Map_has m name, n).
Proof.
  intros Hm. apply lift_heap_pure. unfold hasEvent, bind, ret.
  by rewrite (read_map_live _ _ _ Hm).
Qed.

Lemma not_a_key {V} (m : entries V) name :
  name ∉ Map_keys m → Map_has m name = false.
Proof. intros. rewrite Map_has_keys. by apply bool_decide_eq_false. Qed.

Lemma new_promise_rejected f (n : node) :
  fails_at_once (new_promise (Rejected f)) f n.
Proof.
  unfold fails_at_once, new_promise. eexists _, _. split; [reflexivity|].
  simpl. rewrite lookup_insert_eq.
  split; [apply not_elem_of_dom, is_fresh | done].
Qed.

(** C4: on a local or a remote reflect whose two descriptor maps are
    live, [apply] with a name that is not a key of the method map returns
    a promise already rejected with UnknownMethod, and [subscribe] and
    [unsubscribe] with a name that is not a key of the event map return a
    promise already rejected with UnknownEvent; in each case the promise is
    new and nothing is handed to the network: the outbox, the pending calls
    and the pending subscriptions are as before. *)
Theorem unknown_names_fail_at_the_caller (r : reflect) (n : node)
    (mm em : entries loc) (name : string) (args : list any) (l : listener) :
  nodeHeap n !! _methods (super r) = Some (MapObject mm) →
  nodeHeap n !! _events (super r) = Some (MapObject em) →
  (name ∉ Map_keys mm →
     fails_at_once (apply r name args) (UnknownMethod name) n)
  ∧ (name ∉ Map_keys em →
     fails_at_once (subscribe r name l) (UnknownEvent name) n
     ∧ fails_at_once (unsubscribe r name l) (UnknownEvent name) n).
Proof.
  intros Hm He. split; [intros Hname%not_a_key | intros Hname%not_a_key; split].
  all: destruct r as [r|r]; simpl in *.
  all: unfold LocalReflect_apply, LocalReflect_subscribe, LocalReflect_unsubscribe,
         RemoteReflect_apply, RemoteReflect_subscribe, RemoteReflect_unsubscribe.
  all: unfold fails_at_once, bind at 1.
  all: rewrite ?(hasMethod_live _ _ _ _ Hm), ?(hasEvent_live _ _ _ _ He), Hname.
  all: apply new_promise_rejected.
Qed.


Lemma unknown_names_fail_at_the_caller_witness :
  fails_at_once (apply (Remote remote_test) "bye" [AString "world"])
    (UnknownMethod "bye")
    (default (Services_new []) (nodes (settled_network {[ "hello" := hello ]}) !! "b")).
Proof.
  refine (proj1 (unknown_names_fail_at_the_caller (Remote remote_test) _
                   [("hello", 1%positive)] [] "bye" [AString "world"] 1%positive
                   _ _) _).
  - vm_compute. reflexivity.
  - vm_compute. reflexivity.
  - unfold Map_keys. simpl. intros Hin%list_elem_of_singleton. discriminate Hin.
Defined.

Lemma all_known_pure (this : ServiceReflect) (has : ServiceReflect → string → M heap bool)
    names (h h' : heap) b :
  has = hasMethod ∨ has = hasEvent →
  all_known (has this) names h = Ok (b, h') → h' = h.
Proof.
  intros Hhas. revert b. induction names as [|name names IH]; simpl; intros b.
  - by intros [= _ <-].
  - unfold bind at 1.
    assert (∀ r, has this name h = r → r = Throw TypeError ∨ ∃ k, r = Ok (k, h)) as Hone.
    { intros r <-. destruct Hhas as [-> | ->];
        unfold hasMethod, hasEvent, bind, ret, read_map;
        (destruct (h !! _) as [[]|]; eauto). }
    destruct (Hone _ eq_refl) as [-> | [k ->]]; [done|].
    destruct k; [apply IH | by intros [= _ <-]].
Qed.

(** C2: where [as(contract)] succeeds on a handle (so the handle is
    available and its reflect advertises what the contract declares), the
    generated method of the proxy, for a method the contract declares, is
    the same computation as [call] on the handle with the same arguments:
    the same request and the same promise.  Hence, on any network that
    has the node, awaiting the one and awaiting the other give the same
    settled state, the same resolved value in particular.  Creating the
    proxy changes nothing on the node. *)
Theorem proxy_method_is_call (h : ServiceHandle) (c : ServiceContract)
    (n n' : node) (proxy : Proxy) (method : string) (args : list any) :
  handle_as h c n = Ok (proxy, n') →
  Map_has (contractMethods c) method = true →
  n' = n
  ∧ available h n = Ok (true, n)
  ∧ proxy_method proxy method args n = handle_call h method args n
  ∧ ∀ (net : network) (name : string),
      nodes net !! name = Some n →
      value (p <- at_node name (proxy_method proxy method args) ;; await name p) net
      = value (p <- at_node name (handle_call h method args) ;; await name p) net.
Proof.
  intros Has Hdeclared.
  assert (n' = n ∧ available h n = Ok (true, n)
          ∧ proxy_method proxy method args n = handle_call h method args n)
    as (-> & Havailable & Hsame).
  2:{ do 3 (split; [done|]). intros net name Hn.
      unfold value, bind, at_node. by rewrite Hn, Hsame. }
  revert Has Hdeclared.
  unfold handle_as, available, handle_call, proxy_method, bind, gets.
  destruct (provider_of (handleId h) n) as [r|] eqn:Hr; [|done].
  unfold lift_heap.
  destruct (all_known (hasMethod (super r)) _ (nodeHeap n)) as [[ms h1]|] eqn:Hms;
    [|done].
  apply all_known_pure in Hms as ->; [|by left]. rewrite node_eta.
  destruct (all_known (hasEvent (super r)) _ (nodeHeap n)) as [[es h2]|] eqn:Hes;
    [|done].
  apply all_known_pure in Hes as ->; [|by right]. rewrite node_eta.
  destruct (ms && es); [|done].
  intros [= <- <-] Hdeclared. simpl. by rewrite Hdeclared.
Qed.

Lemma proxy_method_is_call_witness :
  let b := default (Services_new []) (nodes (settled_network {[ "hello" := hello ]}) !! "b") in
  let contract := {| contractMethods := [("hello", {| methodName := "hello";
                        parameters := [{| parameterName := "message";
                                          parameterType := stringType |}];
                        returnType := stringType |})];
                     contractEvents := [] |} in
  proxy_method {| proxyReflect := Remote remote_test; proxyContract := contract |}
      "hello" [AString "world"] b
  = handle_call (get "test") "hello" [AString "world"] b.
Proof.
  intros b contract.
  refine (proj1 (proj2 (proj2 (proxy_method_is_call (get "test") contract b b _
                                 "hello" [AString "world"] _ _)))).
  - vm_compute. reflexivity.
  - reflexivity.
Defined.

(** C3: in the test, node a registers 'test' with [hello(what)] returning
    ['Hello ' + what + '!'], the network settles, and the caller on node b
    gets from [hello('world')] a promise that resolves to ['Hello world!'],
    through [call] as well as through the proxy. *)
Theorem reference_scenario :
  value test_non_proxy TestNetwork = Some (Resolved (AString "Hello world!"))
  ∧ value test_proxy TestNetwork = Some (Resolved (AString "Hello world!")).
Proof. split; vm_compute; reflexivity. Qed.


(** *** One remote call, step by step *)










(** *** One round trip over the network *)





#[local] Opaque consolidate deliver at_node.






End ServicesFacts.

(* ===================================================================== *)
(** ** [ServiceReflect]: how the lookups, the listings and the maps the
       constructor was given act on one another *)
(* ===================================================================== *)

Module ReflectLaws.
Import Js Reflect MapFacts ReflectFacts.

(** *** More on the [Map] model *)

Section Map.
Context {V : Type}.
Implicit Types (m : entries V) (k key : string) (v : V).

Lemma Map_has_set m key v k :
  Map_has (Map_set m key v) k = if decide (key = k) then true else Map_has m k.
Proof.
  rewrite !Map_has_ToBoolean, Map_get_set. by destruct (decide (key = k)).
Qed.

Lemma Map_get_elem m k v : Map_get m k = Obj v → (k, v) ∈ m.
Proof.
  induction m as [|[k0 v0] m IH]; csimpl; [done|].
  destruct (decide (k0 = k)) as [->|Hne].
  - intros [= ->]. by left.
  - intros ?%IH. by right.
Qed.

Lemma Map_elem_get m k v : NoDup (Map_keys m) → (k, v) ∈ m → Map_get m k = Obj v.
Proof.
  unfold Map_keys. induction m as [|[k0 v0] m IH]; csimpl.
  - by intros _ ?%elem_of_nil.
  - intros [Hnotin Hnd]%NoDup_cons [[= -> ->] | Hin]%elem_of_cons.
    + by rewrite decide_True.
    + rewrite decide_False; [by apply IH|].
      intros ->. apply Hnotin. apply list_elem_of_fmap. by exists (k, v).
Qed.

Lemma Map_values_get m v :
  NoDup (Map_keys m) → v ∈ Map_values m ↔ ∃ k, Map_get m k = Obj v.
Proof.
  intros Hnd. unfold Map_values. rewrite list_elem_of_fmap. split.
  - intros ([k v'] & -> & Hin). exists k. by apply Map_elem_get.
  - intros [k Hk%Map_get_elem]. by exists (k, v).
Qed.

Lemma Map_has_first_occurrences (ops : list (string * V)) k :
  Map_has (Map_of_sets ops) k = bool_decide (k ∈ ops.*1).
Proof.
  rewrite Map_has_keys. destruct (Map_of_sets_spec ops) as [-> _].
  apply bool_decide_ext, first_occurrences_subset.
Qed.

(** [set] on a key the map has replaces the value where the key stands. *)
Lemma Map_set_known m key v :
  Map_has m key = true →
  ∃ i, Map_keys m !! i = Some key
       ∧ Map_keys (Map_set m key v) = Map_keys m
       ∧ Map_values (Map_set m key v) = <[i := v]> (Map_values m).
Proof.
  unfold Map_keys, Map_values. induction m as [|[k0 v0] m IH]; csimpl; [done|].
  destruct (decide (k0 = key)) as [->|Hne].
  - intros _. by exists 0.
  - intros (i & Hi & Hk & Hv)%IH. exists (S i). csimpl. by rewrite Hk, Hv.
Qed.

Lemma Map_set_unknown m key v :
  Map_has m key = false →
  Map_keys (Map_set m key v) = Map_keys m ++ [key]
  ∧ Map_values (Map_set m key v) = Map_values m ++ [v].
Proof.
  rewrite Map_has_keys. intros Hnotin%bool_decide_eq_false.
  rewrite Map_set_fresh by done. unfold Map_keys, Map_values.
  by rewrite !fmap_app.
Qed.

End Map.

(** *** Reads after a mutation of the heap *)

Lemma mutate_map_live (h : heap) l m f :
  h !! l = Some (MapObject m) → mutate_map l f h = <[l := MapObject (f m)]> h.
Proof. unfold mutate_map. by intros ->. Qed.

Lemma read_map_mutated (h : heap) l m f :
  h !! l = Some (MapObject m) →
  read_map l (mutate_map l f h) = Ok (f m, mutate_map l f h).
Proof.
  intros Hl. rewrite (mutate_map_live _ _ _ _ Hl).
  apply read_map_live, lookup_insert_eq.
Qed.

Lemma lookup_mutate_map_ne (h : heap) l l' f :
  l ≠ l' → mutate_map l f h !! l' = h !! l'.
Proof.
  intros Hne. unfold mutate_map.
  destruct (h !! l) as [[]|]; try done. by apply lookup_insert_ne.
Qed.

Lemma read_array_after_map_mutation (h : heap) a l f :
  value (read_array a) (mutate_map l f h) = value (read_array a) h.
Proof.
  unfold value, read_array. destruct (decide (l = a)) as [->|Hne].
  - unfold mutate_map. destruct (h !! a) as [[]|] eqn:Ha; rewrite ?Ha; try done.
    by rewrite lookup_insert_eq.
  - rewrite lookup_mutate_map_ne by done. by destruct (h !! a) as [[]|].
Qed.

Lemma value_some_read_map (h : heap) l m :
  h !! l = Some (MapObject m) → value (read_map l) h = Some m.
Proof. intros Hl. unfold value. by rewrite (read_map_live _ _ _ Hl). Qed.


Lemma value_listed_live (getter : ServiceReflect → M heap loc)
    (field : ServiceReflect → loc) this (h : heap) m :
  (getter = methods ∧ field = _methods) ∨ (getter = events ∧ field = _events) →
  h !! field this = Some (MapObject m) →
  value (listed getter this) h = Some (Obj <$> Map_values m).
Proof.
  intros [[-> ->] | [-> ->]] Hm; unfold listed, methods, events;
    by rewrite value_listed, (value_some_read_map _ _ _ Hm).
Qed.

(** X1: the constructor keeps the two maps by reference, so the reflect
    is a live view of them.  After [set(name, d)] on the map that was
    given as [methods], [getMethod(name)] returns [d] and
    [hasMethod(name)] is [true], and every other name answers as it did;
    likewise for the map given as [events]. *)
Theorem reflect_is_a_live_view (i : string) (ms es : loc) (mm em : entries loc)
    (h : heap) (name : string) (d : loc) :
  h !! ms = Some (MapObject mm) →
  h !! es = Some (MapObject em) →
  let this := constructor i ms es in
  (let h' := Map_set_at ms name d h in
   getMethod this name h' = Ok (Obj d, h')
   ∧ hasMethod this name h' = Ok (true, h')
   ∧ ∀ other, other ≠ name →
       value (getMethod this other) h' = value (getMethod this other) h
       ∧ value (hasMethod this other) h' = value (hasMethod this other) h)
  ∧ (let h' := Map_set_at es name d h in
     getEvent this name h' = Ok (Obj d, h')
     ∧ hasEvent this name h' = Ok (true, h')
     ∧ ∀ other, other ≠ name →
         value (getEvent this other) h' = value (getEvent this other) h
         ∧ value (hasEvent this other) h' = value (hasEvent this other) h).
Proof.
  intros Hm He this. unfold Map_set_at.
  split; cbv zeta; (split; [|split]).
  all: unfold getMethod, hasMethod, getEvent, hasEvent; simpl.
  all: try (unfold bind, ret;
            rewrite ?(read_map_mutated _ _ _ _ Hm), ?(read_map_mutated _ _ _ _ He);
            rewrite ?Map_get_set, ?Map_has_set, decide_True by done; done).
  all: intros other Hother; rewrite !value_read_then; unfold value.
  all: rewrite ?(read_map_mutated _ _ _ _ Hm), ?(read_map_mutated _ _ _ _ He),
         ?(read_map_live _ _ _ Hm), ?(read_map_live _ _ _ He); simpl.
  all: by rewrite Map_get_set, Map_has_set, !decide_False by done.
Qed.

Lemma reflect_is_a_live_view_witness :
  let h' := Map_set_at 1%positive "bye" 3%positive example_heap in
  getMethod example_reflect "bye" h' = Ok (Obj 3%positive, h')
  ∧ value (getMethod example_reflect "bye") example_heap = Some Null.
Proof.
  intros h'.
  destruct (reflect_is_a_live_view "test" 1%positive 2%positive
              [("hello", 3%positive)] [] example_heap "bye" 3%positive)
    as ((Hget & _) & _); [reflexivity | reflexivity |].
  split; [exact Hget | reflexivity].
Defined.

(** X2: the array a getter returns is a snapshot.  Whatever is later done
    to any [Map] of the heap, the array still holds the descriptors the
    map held at the read, in that order, while a new read of the getter
    lists the map as it has become. *)
Theorem listing_is_a_snapshot (getter : ServiceReflect → M heap loc)
    (field : ServiceReflect → loc) (this : ServiceReflect) (h : heap)
    (m : entries loc) :
  (getter = methods ∧ field = _methods) ∨ (getter = events ∧ field = _events) →
  h !! field this = Some (MapObject m) →
  ∃ a h1,
    getter this h = Ok (a, h1)
    ∧ (∀ l f, value (read_array a) (mutate_map l f h1) = Some (Obj <$> Map_values m))
    ∧ (∀ f, value (listed getter this) (mutate_map (field this) f h1)
            = Some (Obj <$> Map_values (f m))).
Proof.
  intros Hgetter Hm.
  assert (∃ a h1, getter this h = Ok (a, h1)) as (a & h1 & Hread).
  { destruct Hgetter as [[-> ->] | [-> ->]]; unfold methods, events, bind;
      rewrite (read_map_live _ _ _ Hm); unfold alloc; eauto. }
  exists a, h1. split; [done|].
  assert (h !! a = None ∧ h1 = <[a := ArrayObject (Obj <$> Map_values m)]> h)
    as [Ha ->].
  { destruct Hgetter as [[-> ->] | [-> ->]];
      apply listing_inv in Hread as (m' & Hm' & Ha & ->);
      rewrite Hm in Hm'; by injection Hm' as <-. }
  split.
  - intros l f. rewrite read_array_after_map_mutation.
    unfold value, read_array. by rewrite lookup_insert_eq.
  - intros f. apply (value_listed_live getter field); [done|].
    assert (field this ≠ a) as Hne by (intros Heq; congruence).
    rewrite (mutate_map_live _ _ m); [apply lookup_insert_eq|].
    by rewrite lookup_insert_ne.
Qed.

Lemma listing_is_a_snapshot_witness :
  ∃ a h1,
    methods example_reflect example_heap = Ok (a, h1)
    ∧ value (read_array a) (Map_set_at 1%positive "bye" 3%positive h1)
      = Some [Obj 3%positive]
    ∧ value (listed methods example_reflect) (Map_set_at 1%positive "bye" 3%positive h1)
      = Some [Obj 3%positive; Obj 3%positive].
Proof.
  destruct (listing_is_a_snapshot methods _methods example_reflect example_heap
              [("hello", 3%positive)])
    as (a & h1 & Hread & Hold & Hnew); [by left | reflexivity |].
  exists a, h1. split; [exact Hread|]. split; [apply Hold | apply Hnew].
Defined.

(** X3: on maps filled by [set] calls, a listing and the lookups agree:
    [methods] has one element per distinct method name, none of them
    [null], and a descriptor is in it exactly when [getMethod] returns it
    for some name; likewise [events] and [getEvent]. *)
Theorem listing_agrees_with_lookups (this : ServiceReflect) (h : heap)
    (ms es : list (string * loc)) :
  h !! _methods this = Some (MapObject (Map_of_sets ms)) →
  h !! _events this = Some (MapObject (Map_of_sets es)) →
  (∃ arr, value (listed methods this) h = Some arr
          ∧ length arr = length (first_occurrences ms.*1)
          ∧ ∀ x, x ∈ arr ↔ x ≠ Null ∧ ∃ name, value (getMethod this name) h = Some x)
  ∧ (∃ arr, value (listed events this) h = Some arr
            ∧ length arr = length (first_occurrences es.*1)
            ∧ ∀ x, x ∈ arr ↔ x ≠ Null ∧ ∃ name, value (getEvent this name) h = Some x).
Proof.
  assert (∀ ops : list (string * loc),
            length (Obj <$> Map_values (Map_of_sets ops))
            = length (first_occurrences ops.*1)
            ∧ ∀ x : nullable loc,
                x ∈ Obj <$> Map_values (Map_of_sets ops)
                ↔ x ≠ Null ∧ ∃ name, or (Map_get (Map_of_sets ops) name) Null = x)
    as Hkey.
  { intros ops. split.
    - destruct (Map_of_sets_spec ops) as [<- _].
      unfold Map_values, Map_keys. by rewrite !length_fmap.
    - intros x. rewrite list_elem_of_fmap. split.
      + intros (v & -> & Hv). split; [done|].
        apply Map_values_get in Hv as [k Hk]; [|apply Map_keys_NoDup].
        exists k. by rewrite Hk.
      + intros [Hx [name Hname]]. unfold or in Hname.
        destruct (Map_get (Map_of_sets ops) name) as [| |v] eqn:Hget;
          simpl in Hname; subst x; try done.
        exists v. split; [done|].
        apply Map_values_get; [apply Map_keys_NoDup | eauto]. }
  intros Hm He. split.
  - exists (Obj <$> Map_values (Map_of_sets ms)).
    split; [by apply (value_listed_live methods _methods); [left|]|].
    destruct (Hkey ms) as [Hlen Hin]. split; [done|].
    intros x. rewrite Hin. unfold getMethod.
    setoid_rewrite value_read_then.
    rewrite (value_some_read_map _ _ _ Hm). simpl.
    split; intros [Hx [name Hname]]; (split; [done|]); exists name; congruence.
  - exists (Obj <$> Map_values (Map_of_sets es)).
    split; [by apply (value_listed_live events _events); [right|]|].
    destruct (Hkey es) as [Hlen Hin]. split; [done|].
    intros x. rewrite Hin. unfold getEvent.
    setoid_rewrite value_read_then.
    rewrite (value_some_read_map _ _ _ He). simpl.
    split; intros [Hx [name Hname]]; (split; [done|]); exists name; congruence.
Qed.


Lemma listing_agrees_with_lookups_witness :
  ∃ arr, value (listed methods example_reflect) example_heap = Some arr
         ∧ length arr = 1
         ∧ Obj 3%positive ∈ arr.
Proof.
  destruct (listing_agrees_with_lookups example_reflect example_heap
              [("hello", 3%positive)] [])
    as ((arr & Harr & Hlen & Hin) & _); [reflexivity | reflexivity |].
  exists arr. split; [exact Harr|]. split; [exact Hlen|].
  apply Hin. split; [discriminate|]. exists "hello". reflexivity.
Defined.

(** X4: [getMethod] and [getEvent] never return [undefined]: when the map
    has no entry for the name, [|| null] turns the [undefined] of
    [Map.get] into [null].  So the result is [null] or a descriptor, and
    the heap is as before the call. *)
Theorem lookups_never_return_undefined (this : ServiceReflect) (name : string)
    (h h' : heap) (r : nullable loc) :
  getMethod this name h = Ok (r, h') ∨ getEvent this name h = Ok (r, h') →
  r ≠ Undefined ∧ (r = Null ∨ ∃ d, r = Obj d) ∧ h' = h.
Proof.
  unfold getMethod, getEvent, bind, ret, read_map.
  intros [Hget | Hget];
    (destruct (h !! _) as [[m| | |]|]; try done);
    injection Hget as <- <-; unfold or;
    (destruct (Map_get m name); simpl; eauto 6).
Qed.

Lemma lookups_never_return_undefined_witness :
  ∃ r h', getMethod example_reflect "bye" example_heap = Ok (r, h')
          ∧ r ≠ Undefined ∧ h' = example_heap.
Proof.
  exists Null, example_heap. split; [reflexivity|].
  destruct (lookups_never_return_undefined example_reflect "bye" example_heap
              example_heap Null) as (Hr & _ & Hh); [left; reflexivity |].
  split; [exact Hr | exact Hh].
Defined.

(** X5: on maps filled by [set] calls, a lookup answers with the last
    [set] for the name: [getMethod(name)] returns the descriptor the name
    was last set to, [null] if it was never set, and [hasMethod(name)] is
    [true] exactly when it was set at all; likewise for events. *)
Theorem lookup_returns_last_set (this : ServiceReflect) (h : heap)
    (ms es : list (string * loc)) (name : string) :
  h !! _methods this = Some (MapObject (Map_of_sets ms)) →
  h !! _events this = Some (MapObject (Map_of_sets es)) →
  getMethod this name h = Ok (from_option Obj Null (last_set ms name), h)
  ∧ hasMethod this name h = Ok (bool_decide (name ∈ ms.*1), h)
  ∧ getEvent this name h = Ok (from_option Obj Null (last_set es name), h)
  ∧ hasEvent this name h = Ok (bool_decide (name ∈ es.*1), h).
Proof.
  intros Hm He. unfold getMethod, hasMethod, getEvent, hasEvent, bind, ret.
  rewrite (read_map_live _ _ _ Hm), (read_map_live _ _ _ He).
  rewrite !Map_has_first_occurrences.
  destruct (Map_of_sets_spec ms) as [_ ->], (Map_of_sets_spec es) as [_ ->].
  repeat split; by destruct (last_set _ name).
Qed.

Lemma lookup_returns_last_set_witness :
  let h : heap := <[1%positive := MapObject [("b", 7%positive); ("a", 9%positive)]]>
                    example_heap in
  getMethod example_reflect "b" h = Ok (Obj 7%positive, h).
Proof.
  intros h.
  destruct (lookup_returns_last_set example_reflect h
              [("b", 5%positive); ("a", 9%positive); ("b", 7%positive)] [] "b")
    as (Hget & _); [reflexivity | reflexivity |].
  exact Hget.
Defined.

(** X6: [set(name, d)] on the map behind a getter shows in the next
    listing.  For a name the reflect did not have, the listing is the
    old one with [d] appended; for a name it had, the listing keeps its
    length and its order, and [d] stands where the name's descriptor
    stood. *)
Theorem set_keeps_position_or_appends (getter : ServiceReflect → M heap loc)
    (field : ServiceReflect → loc) (this : ServiceReflect) (h : heap)
    (m : entries loc) (name : string) (d : loc) :
  (getter = methods ∧ field = _methods) ∨ (getter = events ∧ field = _events) →
  h !! field this = Some (MapObject m) →
  let h' := Map_set_at (field this) name d h in
  let arr := Obj <$> Map_values m in
  value (listed getter this) h = Some arr
  ∧ (Map_has m name = false →
     value (listed getter this) h' = Some (arr ++ [Obj d]))
  ∧ (Map_has m name = true →
     ∃ i, Map_keys m !! i = Some name
          ∧ value (listed getter this) h' = Some (<[i := Obj d]> arr)).
Proof.
  intros Hgetter Hm h' arr.
  assert (value (listed getter this) h' = Some (Obj <$> Map_values (Map_set m name d)))
    as Hafter.
  { apply (value_listed_live getter field); [done|].
    unfold h', Map_set_at. rewrite (mutate_map_live _ _ _ _ Hm).
    apply lookup_insert_eq. }
  split; [by apply (value_listed_live getter field)|]. split.
  - intros [_ Hvalues]%(Map_set_unknown _ _ d).
    by rewrite Hafter, Hvalues, fmap_app.
  - intros (i & Hi & _ & Hvalues)%(Map_set_known _ _ d).
    exists i. split; [done|]. by rewrite Hafter, Hvalues, list_fmap_insert.
Qed.

Lemma set_keeps_position_or_appends_witness :
  value (listed methods example_reflect)
    (Map_set_at 1%positive "bye" 3%positive example_heap)
  = Some [Obj 3%positive; Obj 3%positive].
Proof.
  destruct (set_keeps_position_or_appends methods _methods example_reflect
              example_heap [("hello", 3%positive)] "bye" 3%positive)
    as (_ & Happend & _); [by left | reflexivity |].
  exact (Happend eq_refl).
Defined.

(** X7: when the constructor was given two different maps, the method
    side and the event side do not interfere: whatever is done to the
    event map, [getMethod], [hasMethod] and [methods] answer as before,
    and whatever is done to the method map, [getEvent], [hasEvent] and
    [events] answer as before. *)
Theorem methods_and_events_do_not_interfere (this : ServiceReflect) (h : heap)
    (f : entries loc → entries loc) :
  _methods this ≠ _events this →
  (let h' := mutate_map (_events this) f h in
   (∀ name, value (getMethod this name) h' = value (getMethod this name) h)
   ∧ (∀ name, value (hasMethod this name) h' = value (hasMethod this name) h)
   ∧ value (listed methods this) h' = value (listed methods this) h)
  ∧ (let h' := mutate_map (_methods this) f h in
     (∀ name, value (getEvent this name) h' = value (getEvent this name) h)
     ∧ (∀ name, value (hasEvent this name) h' = value (hasEvent this name) h)
     ∧ value (listed events this) h' = value (listed events this) h).
Proof.
  intros Hne.
  assert (∀ l l', l ≠ l' →
            value (read_map l') (mutate_map l f h) = value (read_map l') h) as Hread.
  { intros l l' Hll. unfold value, read_map.
    rewrite lookup_mutate_map_ne by done. by destruct (h !! l') as [[]|]. }
  unfold getMethod, hasMethod, getEvent, hasEvent, listed, methods, events.
  cbv zeta. repeat split; intros;
    rewrite ?value_read_then, ?value_listed, Hread; done.
Qed.

Lemma methods_and_events_do_not_interfere_witness :
  value (getMethod example_reflect "hello")
    (mutate_map 2%positive (λ _, []) example_heap)
  = value (getMethod example_reflect "hello") example_heap.
Proof.
  destruct (methods_and_events_do_not_interfere example_reflect example_heap (λ _, []))
    as ((Hget & _) & _); [discriminate |].
  exact (Hget "hello").
Defined.


(** X8: two reads of the getters never share an array.  After a read of
    one getter and then a read of the same or the other getter, the two
    arrays are different objects, and whatever is done to the elements of
    one, the other still holds what its map held. *)
Theorem two_listings_are_independent
    (getter1 getter2 : ServiceReflect → M heap loc)
    (field1 field2 : ServiceReflect → loc) (this : ServiceReflect) (h : heap)
    (m1 m2 : entries loc) :
  (getter1 = methods ∧ field1 = _methods) ∨ (getter1 = events ∧ field1 = _events) →
  (getter2 = methods ∧ field2 = _methods) ∨ (getter2 = events ∧ field2 = _events) →
  h !! field1 this = Some (MapObject m1) →
  h !! field2 this = Some (MapObject m2) →
  ∃ a1 h1 a2 h2,
    getter1 this h = Ok (a1, h1)
    ∧ getter2 this h1 = Ok (a2, h2)
    ∧ a1 ≠ a2
    ∧ ∀ f,
        value (read_array a2) (mutate_array a1 f h2) = Some (Obj <$> Map_values m2)
        ∧ value (read_array a1) (mutate_array a1 f h2) = Some (f (Obj <$> Map_values m1))
        ∧ value (read_array a1) (mutate_array a2 f h2) = Some (Obj <$> Map_values m1)
        ∧ value (read_array a2) (mutate_array a2 f h2) = Some (f (Obj <$> Map_values m2)).
Proof.
  intros Hg1 Hg2 Hm1 Hm2.
  assert (∀ getter field (h0 : heap) m,
            (getter = methods ∧ field = _methods) ∨ (getter = events ∧ field = _events) →
            h0 !! field this = Some (MapObject m) →
            ∃ a, h0 !! a = None
                 ∧ getter this h0
                   = Ok (a, <[a := ArrayObject (Obj <$> Map_values m)]> h0)) as Hread.
  { intros getter field h0 m [[-> ->] | [-> ->]] Hm;
      unfold methods, events, bind; rewrite (read_map_live _ _ _ Hm);
      unfold alloc; (eexists; split; [|reflexivity]);
      apply not_elem_of_dom, is_fresh. }
  destruct (Hread getter1 field1 h m1 Hg1 Hm1) as (a1 & Ha1 & Hr1).
  set (h1 := <[a1 := ArrayObject (Obj <$> Map_values m1)]> h) in *.
  assert (h1 !! field2 this = Some (MapObject m2)) as Hm2'.
  { unfold h1. rewrite lookup_insert_ne; [done|]. intros Heq. congruence. }
  destruct (Hread getter2 field2 h1 m2 Hg2 Hm2') as (a2 & Ha2 & Hr2).
  assert (a1 ≠ a2) as Hne.
  { intros <-. unfold h1 in Ha2. by rewrite lookup_insert_eq in Ha2. }
  exists a1, h1, a2, (<[a2 := ArrayObject (Obj <$> Map_values m2)]> h1).
  do 3 (split; [done|]).
  intros f. unfold value, read_array, mutate_array, h1.
  rewrite lookup_insert_eq.
  rewrite (lookup_insert_ne _ a2 a1), lookup_insert_eq by done.
  rewrite !lookup_insert_eq.
  rewrite (lookup_insert_ne _ a1 a2), lookup_insert_eq by done.
  rewrite (lookup_insert_ne _ a2 a1), (lookup_insert_ne _ a2 a1), lookup_insert_eq
    by done.
  done.
Qed.

Lemma two_listings_are_independent_witness :
  ∃ a1 h1 a2 h2,
    methods example_reflect example_heap = Ok (a1, h1)
    ∧ events example_reflect h1 = Ok (a2, h2)
    ∧ a1 ≠ a2
    ∧ value (read_array a1) (mutate_array a2 (λ es, Null :: es) h2)
      = Some [Obj 3%positive].
Proof.
  destruct (two_listings_are_independent methods events _methods _events
              example_reflect example_heap [("hello", 3%positive)] [])
    as (a1 & h1 & a2 & h2 & Hr1 & Hr2 & Hne & Hind);
    [by left | by right | reflexivity | reflexivity |].
  exists a1, h1, a2, h2. do 3 (split; [done|]).
  destruct (Hind (λ es, Null :: es)) as (_ & _ & Hkeep & _). exact Hkeep.
Defined.

End ReflectLaws.
